(** * epromimage: a virtual EPROM image assembled from hex, S-Record and
    binary files.

    Shallow embedding of [epromimage.py].  The [EPROM] object is a record
    threaded through its methods; a method that can raise returns the
    exception next to the state it leaves behind, because a Python exception
    does not undo the mutations made before it. *)

From Stdlib Require Import ZArith List String Ascii Bool Lia.
From Stdlib Require Import Strings.Byte.
Import ListNotations.
Open Scope Z_scope.

(** ** Bytes and byte arrays *)

Definition byte_val (b : byte) : Z := Z.of_N (Byte.to_N b).

(** [bytearray.append(b)] for an integer known to lie in [range(256)]. *)
Definition to_byte (z : Z) : byte :=
  match Byte.of_N (Z.to_N z) with
  | Some b => b
  | None => x00
  end.

Definition len {A : Type} (l : list A) : Z := Z.of_nat (List.length l).

(** Python's builtin [sum] over a bytearray: a left fold starting from 0. *)
Definition sum (bs : list byte) : Z :=
  fold_left (fun acc b => acc + byte_val b) bs 0.

(** [a[start:stop] = data] for [0 <= start <= stop]: the slice is replaced by
    [data]; indices past the end are clamped to the length, as Python does. *)
Definition slice_assign (a : list byte) (start stop : Z) (data : list byte)
  : list byte :=
  firstn (Z.to_nat start) a ++ data ++ skipn (Z.to_nat stop) a.

(** [a[i]] for [0 <= i]. *)
Definition index (a : list byte) (i : Z) : option byte :=
  if i <? 0 then None else nth_error a (Z.to_nat i).

(** ** Text: characters, lines and hexadecimal digits *)

Definition code (c : ascii) : Z := Z.of_N (N_of_ascii c).

Definition is_hex (c : ascii) : bool :=
  ((48 <=? code c) && (code c <=? 57))        (* 0-9 *)
  || ((65 <=? code c) && (code c <=? 70))     (* A-F *)
  || ((97 <=? code c) && (code c <=? 102)).   (* a-f *)

Definition hex_val (c : ascii) : Z :=
  if code c <=? 57 then code c - 48
  else if code c <=? 70 then code c - 55
  else code c - 87.

(** [int(num, 16)] on a string of hexadecimal digits. *)
Fixpoint int16_from (acc : Z) (num : string) : Z :=
  match num with
  | EmptyString => acc
  | String c num' => int16_from (16 * acc + hex_val c) num'
  end.

Definition int16 (num : string) : Z := int16_from 0 num.

(** The characters [str.strip()] removes. *)
Definition is_space (c : ascii) : bool :=
  ((9 <=? code c) && (code c <=? 13))
  || ((28 <=? code c) && (code c <=? 32))
  || (code c =? 133) || (code c =? 160).

Fixpoint lstrip (s : string) : string :=
  match s with
  | EmptyString => EmptyString
  | String c s' => if is_space c then lstrip s' else s
  end.

Fixpoint rstrip (s : string) : string :=
  match s with
  | EmptyString => EmptyString
  | String c s' =>
      match rstrip s' with
      | EmptyString => if is_space c then EmptyString else String c EmptyString
      | r => String c r
      end
  end.

Definition strip (s : string) : string := rstrip (lstrip s).

Definition LF : ascii := ascii_of_nat 10.
Definition CR : ascii := ascii_of_nat 13.

(** Text mode translates ["\r\n"] and ["\r"] to ["\n"]. *)
Fixpoint universal_newlines (s : string) : string :=
  match s with
  | EmptyString => EmptyString
  | String c s' =>
      if (c =? CR)%char
      then match s' with
           | String c' s'' =>
               if (c' =? LF)%char
               then String LF (universal_newlines s'')
               else String LF (universal_newlines s')
           | EmptyString => String LF EmptyString
           end
      else String c (universal_newlines s')
  end.

(** The lines of a text, each keeping its newline. *)
Fixpoint split_lines (s : string) : list string :=
  match s with
  | EmptyString => []
  | String c s' =>
      if (c =? LF)%char then String c EmptyString :: split_lines s'
      else match split_lines s' with
           | [] => [String c EmptyString]
           | l :: ls => String c l :: ls
           end
  end.

(** [src.readlines()] and [src.readline()] on a freshly opened text file. *)
Definition readlines (contents : string) : list string :=
  split_lines (universal_newlines contents).

Definition readline (contents : string) : string :=
  match readlines contents with
  | [] => EmptyString
  | l :: _ => l
  end.

(** [re.findall(r'([a-fA-F0-9][a-fA-F0-9])', line)]: the matches of two
    adjacent hexadecimal digits, scanning left to right without overlap. *)
Fixpoint findall_hex_pairs (line : string) : list string :=
  match line with
  | String c1 ((String c2 rest) as line') =>
      if is_hex c1 && is_hex c2
      then String c1 (String c2 EmptyString) :: findall_hex_pairs rest
      else findall_hex_pairs line'
  | _ => []
  end.

(** [p.rfind(c)]: the last index of [c], or -1. *)
Fixpoint rfind_from (c : ascii) (p : string) (i : Z) : Z :=
  match p with
  | EmptyString => -1
  | String a p' =>
      let r := rfind_from c p' (i + 1) in
      if r >=? 0 then r else if (a =? c)%char then i else -1
  end.

Definition rfind (c : ascii) (p : string) : Z := rfind_from c p 0.

Fixpoint all_dots (s : string) : bool :=
  match s with
  | EmptyString => true
  | String c s' => (c =? ".")%char && all_dots s'
  end.

(** [os.path.splitext(p)]: the extension starts at the last dot of the last
    path component, unless only dots precede it there. *)
Definition splitext (p : string) : string * string :=
  let sepIndex := rfind "/" p in
  let dotIndex := rfind "." p in
  if dotIndex >? sepIndex then
    let lead := substring (Z.to_nat (sepIndex + 1))
                          (Z.to_nat (dotIndex - (sepIndex + 1))) p in
    if all_dots lead then (p, EmptyString)
    else (substring 0 (Z.to_nat dotIndex) p,
          substring (Z.to_nat dotIndex)
                    (String.length p - Z.to_nat dotIndex) p)
  else (p, EmptyString).

(** The files that can be opened, with their contents. *)
Definition filesystem : Type := string -> option string.

(** The bytes of a file opened in binary mode. *)
Definition file_bytes (contents : string) : list byte :=
  map byte_of_ascii (list_ascii_of_string contents).

(** ** String formatting: ["%04X" % n] and ["%d" % n] *)

Definition digit_char (d : Z) : ascii :=
  nth (Z.to_nat d)
      ["0"; "1"; "2"; "3"; "4"; "5"; "6"; "7"; "8"; "9";
       "A"; "B"; "C"; "D"; "E"; "F"]%char "0"%char.

Fixpoint natural_digits (base : Z) (fuel : nat) (n : Z) (acc : string)
  : string :=
  match fuel with
  | O => acc
  | S fuel' =>
      let acc' := String (digit_char (n mod base)) acc in
      if n / base =? 0 then acc' else natural_digits base fuel' (n / base) acc'
  end.

Fixpoint zeros (n : nat) : string :=
  match n with
  | O => EmptyString
  | S n' => String "0"%char (zeros n')
  end.

(** Zero-padded conversion; the sign counts towards the width. *)
Definition format_int (base : Z) (width : nat) (z : Z) : string :=
  let body := natural_digits base (S (Z.to_nat (Z.log2 (Z.abs z)))) (Z.abs z)
                             EmptyString in
  let sign := if z <? 0 then "-"%string else EmptyString in
  let used := (String.length sign + String.length body)%nat in
  (sign ++ zeros (width - used) ++ body)%string.

Definition fmt_04X (z : Z) : string := format_int 16 4 z.
Definition fmt_d (z : Z) : string := format_int 10 0 z.

(** ** The segment store of the [bincopy] package

    [epromimage.py] keeps its byte runs in a [bincopy.BinFile].  The package
    is not part of the sources; this module models what the code uses of it
    from the specification of the segment store and of the record codecs. *)

Module bincopy.

(** Modelled from the spec: the error kinds of the segment store and of the
    record codecs ([bincopy.Error] and its subclasses), which are not part
    of the sources. *)
Inductive Error :=
| CollisionError (address : Z)
| FormatError (msg : string)
| RangeError (address : Z).

(** Modelled from the spec: a byte run of the store ([bincopy.Segment],
    not part of the sources), consecutive bytes starting at an absolute
    address. *)
Record Segment := mkSegment { address : Z; data : list byte }.

Definition seg_end (s : Segment) : Z := address s + len (data s).

Definition BinFile := list Segment.

(** [bincopy.BinFile()] *)
Definition empty : BinFile := [].

(** Modelled from the spec: [binfile.segments] (not part of the sources),
    the runs in ascending address order. *)
Definition segments (b : BinFile) : list Segment := b.

(** The byte stored at an absolute address, if any. *)
Fixpoint byte_at (b : BinFile) (x : Z) : option byte :=
  match b with
  | [] => None
  | s :: rest =>
      if (address s <=? x) && (x <? seg_end s)
      then nth_error (data s) (Z.to_nat (x - address s))
      else byte_at rest x
  end.

(** The first position of [address, address + len data) that already holds
    a byte. *)
Fixpoint first_conflict (b : BinFile) (address : Z) (data : list byte)
  : option Z :=
  match data with
  | [] => None
  | _ :: data' =>
      match byte_at b address with
      | Some _ => Some address
      | None => first_conflict b (address + 1) data'
      end
  end.

(** Modelled from the spec: the recording step of the store's addBytes (not
    part of the sources).  Ordered insertion of a run that collides with
    nothing; a run exactly contiguous with a stored one is coalesced with
    it. *)
Fixpoint insert (b : BinFile) (run : Segment) : BinFile :=
  match b with
  | [] => [run]
  | s :: rest =>
      if seg_end run <? address s then run :: s :: rest
      else if seg_end run =? address s
      then mkSegment (address run) (data run ++ data s) :: rest
      else if seg_end s =? address run
      then insert rest (mkSegment (address s) (data s ++ data run))
      else s :: insert rest run
  end.

(** Modelled from the spec: [BinFile.add_binary(data, address)], the
    segment store's addBytes, which is not part of the sources.  A position
    that already holds a byte makes the add fail with a collision error
    naming that position; otherwise the run is recorded in address order.
    The spec requires non-empty data; an empty add records nothing. *)
Definition add_binary (b : BinFile) (data : list byte) (address : Z)
  : Error + BinFile :=
  match data with
  | [] => inr b
  | _ :: _ =>
      match first_conflict b address data with
      | Some a => inl (CollisionError a)
      | None => inr (insert b (mkSegment address data))
      end
  end.

(** Modelled from the spec: [binfile.minimum_address] (not part of the
    sources), the lowest occupied address, [None] for an empty store. *)
Definition minimum_address (b : BinFile) : option Z :=
  match b with
  | [] => None
  | s :: _ => Some (address s)
  end.

(** Modelled from the spec: [binfile.maximum_address] (not part of the
    sources), one past the highest occupied address; [scanfile] subtracts 1
    to report the highest occupied address. *)
Definition maximum_address (b : BinFile) : option Z :=
  match b with
  | [] => None
  | s :: rest => Some (seg_end (last rest s))
  end.

(** Runs are non-empty, ascending and separated by at least one free
    address (contiguous runs having been coalesced). *)
Fixpoint wf_from (bound : Z) (b : BinFile) : Prop :=
  match b with
  | [] => True
  | s :: rest => bound < address s /\ data s <> [] /\ wf_from (seg_end s) rest
  end.

Definition wf (b : BinFile) : Prop := exists bound, wf_from bound b.

(** No position of [address, address + n) holds a byte. *)
Definition range_free (b : BinFile) (address n : Z) : Prop :=
  forall x, address <= x < address + n -> byte_at b x = None.

(** Modelled from the spec: the runs a codec decoded go into the store one
    [add_binary] at a time (the loop inside [BinFile.add_srec_file] and
    [BinFile.add_ihex_file], not part of the sources), stopping at the first
    failure; the runs added before it stay in the store. *)
Fixpoint add_runs (runs : list Segment) (b : BinFile)
  : option Error * BinFile :=
  match runs with
  | [] => (None, b)
  | r :: runs' =>
      match add_binary b (data r) (address r) with
      | inl e => (Some e, b)
      | inr b' => add_runs runs' b'
      end
  end.

(** *** Record codecs *)

(** The byte values of a string of hexadecimal digit pairs. *)
Fixpoint hex_bytes (s : string) : option (list Z) :=
  match s with
  | EmptyString => Some []
  | String c1 (String c2 rest) =>
      if is_hex c1 && is_hex c2
      then option_map (cons (16 * hex_val c1 + hex_val c2)) (hex_bytes rest)
      else None
  | String _ EmptyString => None
  end.

Definition total (bs : list Z) : Z := fold_left Z.add bs 0.

(** A big-endian address field. *)
Definition be_value (bs : list Z) : Z :=
  fold_left (fun acc b => 256 * acc + b) bs 0.

(** Consecutive data records extend the run being built (kept at the head
    of [acc]); a record at a non-contiguous address starts a new run. *)
Definition accumulate (acc : list Segment) (addr : Z) (d : list byte)
  : list Segment :=
  match acc with
  | s :: acc' =>
      if seg_end s =? addr
      then mkSegment (address s) (data s ++ d) :: acc'
      else mkSegment addr d :: acc
  | [] => [mkSegment addr d]
  end.

Definition malformed : Error := FormatError "malformed record".
Definition bad_checksum : Error := FormatError "bad checksum".

(** Modelled from the spec: the Intel Hex decoder behind
    [BinFile.add_ihex_file], which is not part of the sources.  A record is
    [:], byte count, 16-bit address, record type, data and a two's
    complement checksum; type 00 is data, 01 ends the decoding, 02 and 04
    set the base added to the addresses of the records that follow. *)
Fixpoint decode_ihex_lines (lines : list string) (base : Z)
         (acc : list Segment) : Error + list Segment :=
  match lines with
  | [] => inr (rev acc)
  | line :: rest =>
      match strip line with
      | String c payload =>
          if (c =? ":")%char then
            match hex_bytes payload with
            | Some (n :: ah :: al :: t :: body) =>
                let d := firstn (Z.to_nat n) body in
                match skipn (Z.to_nat n) body with
                | [ck] =>
                    if ck =? (0x100 - total (n :: ah :: al :: t :: d) mod 0x100)
                               mod 0x100
                    then
                      if t =? 0 then
                        decode_ihex_lines rest base
                          (accumulate acc (base + (256 * ah + al))
                                      (map to_byte d))
                      else if t =? 1 then inr (rev acc)
                      else if t =? 2 then
                        match d with
                        | [h; l] =>
                            decode_ihex_lines rest
                              (Z.shiftl (256 * h + l) 4) acc
                        | _ => inl malformed
                        end
                      else if t =? 4 then
                        match d with
                        | [h; l] =>
                            decode_ihex_lines rest
                              (Z.shiftl (256 * h + l) 16) acc
                        | _ => inl malformed
                        end
                      else inl (FormatError "unknown record type")
                    else inl bad_checksum
                | _ => inl malformed
                end
            | _ => inl malformed
            end
          else inl malformed
      | EmptyString => inl malformed
      end
  end.

Definition decode_ihex (text : string) : Error + list Segment :=
  decode_ihex_lines (readlines text) 0 [].

(** The width in bytes of the address field of each S-Record type. *)
Definition srec_address_width (t : ascii) : option nat :=
  if (t =? "0")%char then Some 2%nat
  else if (t =? "1")%char then Some 2%nat
  else if (t =? "2")%char then Some 3%nat
  else if (t =? "3")%char then Some 4%nat
  else if (t =? "5")%char then Some 2%nat
  else if (t =? "6")%char then Some 3%nat
  else if (t =? "7")%char then Some 4%nat
  else if (t =? "8")%char then Some 3%nat
  else if (t =? "9")%char then Some 2%nat
  else None.

Definition srec_is_data (t : ascii) : bool :=
  (t =? "1")%char || (t =? "2")%char || (t =? "3")%char.

(** Modelled from the spec: the Motorola S-Record decoder behind
    [BinFile.add_srec_file], which is not part of the sources.  A record is
    [S], a type digit, a byte count covering address, data and checksum,
    the address, the data and a one's complement checksum; only the data
    records (types 1, 2, 3) produce runs. *)
Fixpoint decode_srec_lines (lines : list string) (acc : list Segment)
  : Error + list Segment :=
  match lines with
  | [] => inr (rev acc)
  | line :: rest =>
      match strip line with
      | String s (String t payload) =>
          if (s =? "S")%char then
            match srec_address_width t, hex_bytes payload with
            | Some w, Some (count :: body) =>
                if (len body =? count) && (Z.of_nat w <? len body) then
                  let addr := firstn w body in
                  let d := firstn (List.length body - w - 1) (skipn w body) in
                  match skipn (List.length body - 1) body with
                  | [ck] =>
                      if ck =? 0xFF - total (count :: addr ++ d) mod 0x100
                      then
                        if srec_is_data t
                        then decode_srec_lines rest
                               (accumulate acc (be_value addr) (map to_byte d))
                        else decode_srec_lines rest acc
                      else inl bad_checksum
                  | _ => inl malformed
                  end
                else inl malformed
            | _, _ => inl malformed
            end
          else inl malformed
      | _ => inl malformed
      end
  end.

Definition decode_srec (text : string) : Error + list Segment :=
  decode_srec_lines (readlines text) [].

End bincopy.

(** ** Exceptions *)

(** The argument an [Error] is constructed with: a formatted message, or the
    [bincopy.Error] it wraps ([raise Error(error)]). *)
Inductive error_args :=
| Msg (text : string)
| Wrapped (cause : bincopy.Error).

Inductive exn :=
| Error (args : error_args)          (* epromimage.Error *)
| BincopyError (e : bincopy.Error)   (* bincopy.Error, when not intercepted *)
| OSError (filename : string)        (* open() on a file that cannot be read *)
| IndexError                         (* indexing an empty string *)
| TypeError.                         (* arithmetic on None *)

Definition result (A : Type) : Type := (exn + A)%type.

Definition ok {A : Type} (a : A) : result A := inr a.
Definition raise {A : Type} (e : exn) : result A := inl e.

Definition msg_add_bytes (addr : Z) : string :=
  ("Error adding bytes to the EPROM image at addr 0x" ++ fmt_04X addr)%string.

Definition msg_below_offset (addr offset : Z) : string :=
  ("Cannot add bytes to the EPROM image at addr 0x" ++ fmt_04X addr
   ++ " - it is less than the offset addr 0x" ++ fmt_04X offset)%string.

Definition msg_past_end (length addr size : Z) : string :=
  ("Added bytes of length " ++ fmt_d length ++ " at addr 0x" ++ fmt_04X addr
   ++ " would run past the end of the EPROM, whose size is "
   ++ fmt_d size)%string.

Definition msg_unknown_type (filename : string) : string :=
  ("Unknown file type for " ++ filename)%string.

(** ** Files *)

(** [readfile(filename)] and [binfile.add_binary(bb)]: the base address
    defaults to 0. *)
Definition default_addr : Z := 0.


(** Modelled from the spec: [BinFile.add_srec_file] and
    [BinFile.add_ihex_file] (not part of the sources): open the file, decode
    it and add its runs to the store. *)
Definition add_record_file
           (decode : string -> bincopy.Error + list bincopy.Segment)
           (fs : filesystem) (filename : string) (b : bincopy.BinFile)
  : result unit * bincopy.BinFile :=
  match fs filename with
  | None => (raise (OSError filename), b)
  | Some contents =>
      match decode contents with
      | inl e => (raise (BincopyError e), b)
      | inr runs =>
          match bincopy.add_runs runs b with
          | (Some e, b') => (raise (BincopyError e), b')
          | (None, b') => (ok tt, b')
          end
      end
  end.

Definition add_srec_file := add_record_file bincopy.decode_srec.
Definition add_ihex_file := add_record_file bincopy.decode_ihex.

(** Modelled from the spec: [BinFile.add_binary_file(filename, address)]
    (not part of the sources): the raw bytes of the file as one run. *)
Definition add_binary_file (fs : filesystem) (filename : string) (addr : Z)
           (b : bincopy.BinFile) : result unit * bincopy.BinFile :=
  match fs filename with
  | None => (raise (OSError filename), b)
  | Some contents =>
      match bincopy.add_binary b (file_bytes contents) addr with
      | inl e => (raise (BincopyError e), b)
      | inr b' => (ok tt, b')
      end
  end.

(** [ftype == tag] for an [ftype] that may be [None]. *)
Definition is_type (ftype : option string) (tag : string) : bool :=
  match ftype with
  | Some t => (t =? tag)%string
  | None => false
  end.

Definition _get_filetype (fs : filesystem) (filename : string)
  : result (option string) :=
  let ext := snd (splitext filename) in
  if (ext =? ".s19")%string then ok (Some "srecord"%string)
  else if (ext =? ".bin")%string then ok (Some "binary"%string)
  else if (ext =? ".hex")%string then
    match fs filename with
    | None => raise (OSError filename)
    | Some contents =>
        match readline contents with
        | EmptyString => raise IndexError
        | String c _ =>
            if (c =? ":")%char then ok (Some "intelhex"%string)
            else ok (Some "hex"%string)
        end
    end
  else if (ext =? ".ihex")%string then ok (Some "intelhex"%string)
  else
    match fs filename with
    | None => raise (OSError filename)
    | Some _ => ok None
    end.

(** The body of the loop over the lines of a raw hex file. *)
Definition import_hex_line (bb : list byte) (line : string) : list byte :=
  let line := strip line in
  match line with
  | EmptyString => bb
  | String c _ =>
      if (c =? "#")%char then bb
      else fold_left (fun bb num => bb ++ [to_byte (int16 num)])
                     (findall_hex_pairs line) bb
  end.

Definition _import_hex (fs : filesystem) (filename : string)
  : result (list byte) :=
  match fs filename with
  | None => raise (OSError filename)
  | Some contents => ok (fold_left import_hex_line (readlines contents) [])
  end.

(** ** The EPROM class *)

Record EPROM := mkEPROM {
  offset : Z;
  size : Z;
  image : list byte;
  binfile : bincopy.BinFile
}.

(** Assignment to [self.image] and to the store behind [self.binfile]. *)
Definition set_image (self : EPROM) (img : list byte) : EPROM :=
  {| offset := offset self;
     size := size self;
     image := img;
     binfile := binfile self |}.

Definition set_binfile (self : EPROM) (b : bincopy.BinFile) : EPROM :=
  {| offset := offset self;
     size := size self;
     image := image self;
     binfile := b |}.

(** A method: the object before, the outcome and the object after. *)
Definition method (A : Type) : Type := EPROM -> result A * EPROM.

(** The warnings [__init__] prints. *)
Definition init_warnings (size offset : Z) : list string :=
  (if negb (size mod 1024 =? 0)
   then ["WARNING: An EPROM size should really be a multiple of 1024 bytes!"%string]
   else [])
  ++
  (if negb (offset mod 1024 =? 0)
   then ["WARNING: An EPROM offset should really be a multiple of 1024 bytes!"%string]
   else []).

(** [EPROM(size, offset)] *)
Definition EPROM_init (size offset : Z) : EPROM :=
  {| offset := offset;
     size := size;
     image := repeat xff (Z.to_nat size);
     binfile := bincopy.empty |}.

Definition checksum (self : EPROM) : Z :=
  Z.land (sum (image self)) 0xFFFF.

(** The chunk iterator, as the list of the tuples it yields. *)
Definition chunks (self : EPROM) : list (Z * list byte) :=
  map (fun s => (bincopy.address s - offset self, bincopy.data s))
      (bincopy.segments (binfile self)).

Definition _add_bytes_to_image (addr : Z) (data : list byte) : method unit :=
  fun self =>
    if addr <? offset self
    then (raise (Error (Msg (msg_below_offset addr (offset self)))), self)
    else
      let start := addr - offset self in
      let stop := start + len data in
      if stop >? size self
      then (raise (Error (Msg (msg_past_end (len data) addr (size self)))), self)
      else (ok tt, set_image self (slice_assign (image self) start stop data)).

Definition add_bytes (addr : Z) (data : list byte) : method unit :=
  fun self =>
    match bincopy.add_binary (binfile self) data addr with
    | inl _ => (raise (Error (Msg (msg_add_bytes addr))), self)
    | inr b => _add_bytes_to_image addr data (set_binfile self b)
    end.

(** The loop of [readfile] over the segments of the store. *)
Fixpoint project_segments (segs : list bincopy.Segment) : method unit :=
  fun self =>
    match segs with
    | [] => (ok tt, self)
    | s :: segs' =>
        match _add_bytes_to_image (bincopy.address s) (bincopy.data s) self with
        | (inl e, self') => (inl e, self')
        | (inr _, self') => project_segments segs' self'
        end
    end.

(** Step 2 of [readfile]: the file goes into the store. *)
Definition load_file (fs : filesystem) (filename : string) (addr : Z)
           (ftype : option string) (b : bincopy.BinFile)
  : result unit * bincopy.BinFile :=
  if is_type ftype "srecord" then add_srec_file fs filename b
  else if is_type ftype "binary" then add_binary_file fs filename addr b
  else if is_type ftype "intelhex" then add_ihex_file fs filename b
  else if is_type ftype "hex" then
    match _import_hex fs filename with
    | inl e => (inl e, b)
    | inr bb =>
        match bincopy.add_binary b bb addr with
        | inl e => (raise (BincopyError e), b)
        | inr b' => (ok tt, b')
        end
    end
  else (raise (Error (Msg (msg_unknown_type filename))), b).

Definition readfile (fs : filesystem) (filename : string) (addr : Z)
  : method (option string) :=
  fun self =>
    match _get_filetype fs filename with
    | inl e => (inl e, self)
    | inr ftype =>
        let '(r, b) := load_file fs filename addr ftype (binfile self) in
        let self1 := set_binfile self b in
        match r with
        | inl (BincopyError e) => (raise (Error (Wrapped e)), self1)
        | inl e => (inl e, self1)
        | inr _ =>
            match project_segments (bincopy.segments b) self1 with
            | (inl e, self2) => (inl e, self2)
            | (inr _, self2) => (ok ftype, self2)
            end
        end
    end.

(** ** Scanning a file without an image *)

Section Scan.

(** [BinFile.as_hexdump()], the rendering of the store as text. *)
Variable as_hexdump : bincopy.BinFile -> string.

Definition scan_chunk (s : bincopy.Segment) : Z * Z * Z :=
  let sl := len (bincopy.data s) in
  let ss := bincopy.address s in
  let se := ss + sl - 1 in
  (ss, se, sl).

Definition scanfile (fs : filesystem) (filename : string)
  : result (option string * Z * Z * Z * list (Z * Z * Z) * string) :=
  match _get_filetype fs filename with
  | inl e => inl e
  | inr ftype =>
      match load_file fs filename default_addr ftype bincopy.empty with
      | (inl e, _) => inl e
      | (inr _, b) =>
          let chunks :=
            fold_left (fun chunks s => chunks ++ [scan_chunk s])
                      (bincopy.segments b) [] in
          match bincopy.minimum_address b, bincopy.maximum_address b with
          | Some lo, Some hi =>
              let astart := lo in
              let aend := hi - 1 in
              let alen := aend - astart + 1 in
              ok (ftype, astart, aend, alen, chunks, as_hexdump b)
          | _, _ => raise TypeError
          end
      end
  end.

End Scan.

(** ** Raw hex in the words of the specification *)

(** Every character of a string satisfies a test. *)
Fixpoint all_chars (p : ascii -> bool) (s : string) : bool :=
  match s with
  | EmptyString => true
  | String c s' => p c && all_chars p s'
  end.

(** The maximal stretches of hexadecimal digits of a line; everything else
    only separates them. *)
Fixpoint hex_runs_from (cur : string) (line : string) : list string :=
  match line with
  | EmptyString => [cur]
  | String c line' =>
      if is_hex c then hex_runs_from (cur ++ String c EmptyString) line'
      else cur :: hex_runs_from EmptyString line'
  end.

Definition hex_runs (line : string) : list string :=
  hex_runs_from EmptyString line.

(** The successive digit pairs of a stretch of digits. *)
Fixpoint digit_pairs (run : string) : list string :=
  match run with
  | String c1 (String c2 rest) =>
      String c1 (String c2 EmptyString) :: digit_pairs rest
  | _ => []
  end.

(** A comment line: its first non-blank character is [#]. *)
Definition is_comment (line : string) : bool :=
  match lstrip line with
  | String c _ => (c =? "#")%char
  | EmptyString => false
  end.

(** The decoder as the specification words it: comment lines are dropped,
    every character that is not a hexadecimal digit is skipped, and each
    digit pair gives one byte, in order of appearance. *)
Definition raw_hex_decode_spec (text : string) : list byte :=
  flat_map (fun line =>
              map (fun pair => to_byte (int16 pair))
                  (flat_map digit_pairs (hex_runs line)))
           (filter (fun line => negb (is_comment line)) (readlines text)).

(** The number of data bytes a store holds. *)
Definition total_length (b : bincopy.BinFile) : Z :=
  fold_right (fun s acc => len (bincopy.data s) + acc) 0 b.

(** ** Exception classes *)

Inductive exn_class :=
| class_Exception
| class_Error
| class_bincopy_Error
| class_OSError
| class_IndexError
| class_TypeError.

Definition class_of (e : exn) : exn_class :=
  match e with
  | Error _ => class_Error
  | BincopyError _ => class_bincopy_Error
  | OSError _ => class_OSError
  | IndexError => class_IndexError
  | TypeError => class_TypeError
  end.



(** An image as the constructor and the methods leave it: the buffer has
    [size] bytes and the store is ordered. *)
Definition wf (self : EPROM) : Prop :=
  List.length (image self) = Z.to_nat (size self) /\ bincopy.wf (binfile self).

(** ** Export: rendering the data as text *)

Definition NL : string := String LF EmptyString.
Definition TAB : string := String (ascii_of_nat 9) EmptyString.

(** ["%02X" % b] and ["%X" % n] *)
Definition fmt_02X (z : Z) : string := format_int 16 2 z.
Definition fmt_X (z : Z) : string := format_int 16 0 z.

(** [s[:-n]]: the string without its last [n] characters. *)
Definition drop_last (n : nat) (s : string) : string :=
  substring 0 (String.length s - n) s.

(** One turn of the loop of [_data_to_hex_strings], on [(buf, bytes)]. *)
Definition hex_strings_step (st : string * Z) (b : byte) : string * Z :=
  let '(buf, bytes) := st in
  let buf := (buf ++ fmt_02X (byte_val b))%string in
  let bytes := bytes + 1 in
  if bytes >=? 16 then ((buf ++ NL)%string, 0) else (buf, bytes).

Definition _data_to_hex_strings (data : list byte) : string :=
  fst (fold_left hex_strings_step data (EmptyString, 0)).

(** The text [_data_to_c_src] starts with, for data of [n] bytes. *)
Definition c_src_header (n : Z) : string :=
  ("// Generated by epromimage.py" ++ NL ++ NL
   ++ "#include <stdint.h>" ++ NL ++ NL ++ NL
   ++ "#include <stddef.h>" ++ NL ++ NL ++ NL
   ++ "// Data size 0x" ++ fmt_X n ++ " bytes (" ++ fmt_d n ++ ")" ++ NL ++ NL
   ++ "const size_t assemblyImageSize = 0x" ++ fmt_X n ++ ";" ++ NL ++ NL
   ++ "const uint8_t assemblyImage[" ++ fmt_d n ++ "] = {" ++ NL)%string.

(** One turn of the loop of [_data_to_c_src], on [(buf, line, bytes)]. *)
Definition c_src_step (st : string * string * Z) (b : byte)
  : string * string * Z :=
  let '(buf, line, bytes) := st in
  let line := if bytes =? 0 then (line ++ TAB)%string
              else (line ++ " ")%string in
  let line := (line ++ ("0x" ++ fmt_02X (byte_val b) ++ ","))%string in
  let bytes := bytes + 1 in
  if bytes >=? 16 then ((buf ++ line ++ NL)%string, EmptyString, 0)
  else (buf, line, bytes).

(** After the loop: a full last line loses its newline and comma
    ([buf[:-2]]), a partial one its comma ([line[:-1]]). *)
Definition c_src_finish (st : string * string * Z) : string :=
  let '(buf, line, bytes) := st in
  if bytes =? 0 then drop_last 2 buf else (buf ++ drop_last 1 line)%string.

Definition _data_to_c_src (data : list byte) : string :=
  let buf := c_src_header (len data) in
  let buf := c_src_finish (fold_left c_src_step data (buf, EmptyString, 0)) in
  (buf ++ NL ++ "};" ++ NL)%string.

(** The raw hex text of some data, written out directly: two digits per
    byte and a newline after every sixteenth byte; [n] bytes are already on
    the current line. *)
Fixpoint hex_text (n : Z) (data : list byte) : string :=
  match data with
  | [] => EmptyString
  | b :: data' =>
      (fmt_02X (byte_val b)
       ++ (if (n + 1 >=? 16)%Z then NL ++ hex_text 0 data'
           else hex_text (n + 1)%Z data'))%string
  end.

(** The initializer list of the C array, written out directly: the items
    are separated by commas, the first of a row follows a tab, the others a
    space, and a row ends after sixteen items. *)
Fixpoint c_array_items (n : Z) (data : list byte) : string :=
  match data with
  | [] => EmptyString
  | b :: data' =>
      ((if (n =? 0)%Z then TAB else " ") ++ "0x" ++ fmt_02X (byte_val b)
       ++ match data' with
          | [] => EmptyString
          | _ :: _ =>
              "," ++ (if (n + 1 >=? 16)%Z then NL ++ c_array_items 0 data'
                      else c_array_items (n + 1)%Z data')
          end)%string
  end.

(** ** The buffer as the projection of the store *)

(** Every position of the buffer holds the byte the store has at that
    address, or 0xFF where the store has none. *)
Definition projected (self : EPROM) : Prop :=
  forall j, 0 <= j < size self ->
            index (image self) j
            = Some (match bincopy.byte_at (binfile self) (offset self + j) with
                    | Some v => v
                    | None => xff
                    end).

(** The store holds nothing outside the window. *)
Definition within_window (self : EPROM) : Prop :=
  forall x, bincopy.byte_at (binfile self) x <> None ->
            offset self <= x < offset self + size self.

Definition consistent (self : EPROM) : Prop :=
  wf self /\ projected self /\ within_window self.
(** * Properties *)

(** ** Byte arrays *)

Lemma len_nonneg {A : Type} (l : list A) : 0 <= len l.
Proof. unfold len. lia. Qed.

Lemma len_app {A : Type} (l1 l2 : list A) : len (l1 ++ l2) = len l1 + len l2.
Proof. unfold len. rewrite length_app. lia. Qed.

Lemma len_nil_iff {A : Type} (l : list A) : len l = 0 <-> l = [].
Proof.
  unfold len. destruct l; simpl; split; intro H; try reflexivity;
    try discriminate; lia.
Qed.

Lemma len_pos {A : Type} (l : list A) : l <> [] -> 0 < len l.
Proof. destruct l; [congruence | unfold len; simpl; lia]. Qed.

Lemma fold_sum_shift (bs : list byte) (a : Z) :
  fold_left (fun acc b => acc + byte_val b) bs a = a + sum bs.
Proof.
  unfold sum. revert a.
  induction bs as [| b bs IH]; intro a; simpl.
  - lia.
  - rewrite (IH (a + byte_val b)), (IH (byte_val b)). lia.
Qed.

Lemma sum_cons (b : byte) (bs : list byte) : sum (b :: bs) = byte_val b + sum bs.
Proof. unfold sum at 1. simpl. rewrite fold_sum_shift. lia. Qed.

Lemma sum_app (l1 l2 : list byte) : sum (l1 ++ l2) = sum l1 + sum l2.
Proof.
  induction l1 as [| b l1 IH]; simpl.
  - reflexivity.
  - rewrite !sum_cons, IH. lia.
Qed.

Lemma sum_repeat (b : byte) (n : nat) : sum (repeat b n) = Z.of_nat n * byte_val b.
Proof.
  induction n as [| n IH].
  - reflexivity.
  - cbn [repeat]. rewrite sum_cons, IH. lia.
Qed.

Lemma checksum_mod (self : EPROM) : checksum self = sum (image self) mod 0x10000.
Proof.
  unfold checksum. change 0xFFFF with (Z.ones 16).
  rewrite Z.land_ones by lia. reflexivity.
Qed.

Lemma index_app_l (a b : list byte) (i : Z) :
  i < len a -> index (a ++ b) i = index a i.
Proof.
  unfold index, len. intro H. destruct (i <? 0) eqn:E; [reflexivity |].
  apply Z.ltb_ge in E. apply nth_error_app1. lia.
Qed.

Lemma index_app_r (a b : list byte) (i : Z) :
  len a <= i -> index (a ++ b) i = index b (i - len a).
Proof.
  unfold index, len. intro H.
  destruct (i <? 0) eqn:E; [apply Z.ltb_lt in E; lia |].
  destruct (i - Z.of_nat (List.length a) <? 0) eqn:E2;
    [apply Z.ltb_lt in E2; lia |].
  rewrite nth_error_app2 by lia. f_equal. lia.
Qed.

Lemma index_firstn (a : list byte) (n : nat) (i : Z) :
  i < Z.of_nat n -> index (firstn n a) i = index a i.
Proof.
  unfold index. intro H. destruct (i <? 0) eqn:E; [reflexivity |].
  apply Z.ltb_ge in E. rewrite nth_error_firstn.
  destruct (Nat.ltb_spec (Z.to_nat i) n); [reflexivity | lia].
Qed.

Lemma index_skipn (a : list byte) (n : nat) (i : Z) :
  0 <= i -> index (skipn n a) i = index a (i + Z.of_nat n).
Proof.
  unfold index. intro H.
  destruct (i <? 0) eqn:E; [apply Z.ltb_lt in E; lia |].
  destruct (i + Z.of_nat n <? 0) eqn:E2; [apply Z.ltb_lt in E2; lia |].
  rewrite nth_error_skipn. f_equal. lia.
Qed.

Lemma index_some_bounds (a : list byte) (i : Z) (b : byte) :
  index a i = Some b -> 0 <= i < len a.
Proof.
  unfold index, len. destruct (i <? 0) eqn:E; [discriminate |].
  apply Z.ltb_ge in E. intro H.
  assert (Z.to_nat i < List.length a)%nat
    by (apply nth_error_Some; congruence).
  lia.
Qed.

Lemma length_slice_assign (a : list byte) (start : Z) (data : list byte) :
  0 <= start -> start + len data <= len a ->
  List.length (slice_assign a start (start + len data) data) = List.length a.
Proof.
  unfold slice_assign, len. intros H0 H1.
  rewrite !length_app, length_firstn, length_skipn. lia.
Qed.

(** Reading the buffer after a slice assignment. *)
Lemma index_slice_assign (a : list byte) (start : Z) (data : list byte) (i : Z) :
  0 <= start -> start + len data <= len a ->
  index (slice_assign a start (start + len data) data) i =
  if (start <=? i) && (i <? start + len data)
  then nth_error data (Z.to_nat (i - start))
  else index a i.
Proof.
  intros H0 H1. unfold slice_assign.
  assert (Hf : len (firstn (Z.to_nat start) a) = start).
  { unfold len in *. rewrite length_firstn. lia. }
  destruct (start <=? i) eqn:E1; simpl.
  - apply Z.leb_le in E1.
    rewrite index_app_r by lia. rewrite Hf.
    destruct (i <? start + len data) eqn:E2.
    + apply Z.ltb_lt in E2. rewrite index_app_l by lia.
      unfold index. destruct (i - start <? 0) eqn:E3;
        [apply Z.ltb_lt in E3; lia | reflexivity].
    + apply Z.ltb_ge in E2. rewrite index_app_r by lia.
      rewrite index_skipn by lia. f_equal. unfold len in *. lia.
  - apply Z.leb_gt in E1. rewrite index_app_l by lia.
    apply index_firstn. lia.
Qed.

(** The checksum of the buffer after a slice assignment. *)
Lemma sum_slice_assign (a : list byte) (start : Z) (data : list byte) :
  0 <= start -> start + len data <= len a ->
  sum (slice_assign a start (start + len data) data) =
  sum a - sum (firstn (List.length data) (skipn (Z.to_nat start) a)) + sum data.
Proof.
  intros H0 H1. unfold slice_assign.
  replace (Z.to_nat (start + len data))
    with (List.length data + Z.to_nat start)%nat by (unfold len; lia).
  rewrite <- skipn_skipn, !sum_app.
  assert (E : sum a =
              sum (firstn (Z.to_nat start) a)
              + (sum (firstn (List.length data) (skipn (Z.to_nat start) a))
                 + sum (skipn (List.length data) (skipn (Z.to_nat start) a)))).
  { rewrite <- !sum_app, !firstn_skipn. reflexivity. }
  lia.
Qed.

(** ** The segment store *)

Lemma firstn_length_app {A : Type} (p q : list A) :
  firstn (List.length p) (p ++ q) = p.
Proof.
  induction p as [| a p IH]; simpl; [reflexivity | now rewrite IH].
Qed.

Lemma skipn_length_app {A : Type} (p q : list A) :
  skipn (List.length p) (p ++ q) = q.
Proof. induction p as [| a p IH]; simpl; [reflexivity | exact IH]. Qed.

(** A window of [L] that starts with [p ++ q] holds [q] right after [p]. *)
Lemma firstn_skipn_suffix {A : Type} (p q L : list A) :
  firstn (List.length (p ++ q)) L = p ++ q ->
  firstn (List.length q) (skipn (List.length p) L) = q.
Proof.
  intro H.
  rewrite <- (firstn_skipn (List.length (p ++ q)) L), H.
  rewrite <- app_assoc, skipn_length_app.
  apply firstn_length_app.
Qed.

Ltac bool_cases :=
  repeat match goal with
         | |- context [?a <=? ?b] => destruct (Z.leb_spec a b)
         | |- context [?a <? ?b] => destruct (Z.ltb_spec a b)
         end;
  cbn [andb].

Ltac app_cases :=
  first [ apply nth_error_app1; lia
        | rewrite nth_error_app2 by lia; f_equal; lia ].

Lemma wf_from_weaken (b : bincopy.BinFile) (bound bound' : Z) :
  bincopy.wf_from bound b -> bound' <= bound -> bincopy.wf_from bound' b.
Proof.
  destruct b as [| s rest]; simpl; [trivial |].
  intros (H1 & H2 & H3) Hle. repeat split; try assumption. lia.
Qed.

(** Nothing is stored at or below the bound of an ordered store. *)
Lemma byte_at_below_bound (b : bincopy.BinFile) (bound x : Z) :
  bincopy.wf_from bound b -> x <= bound -> bincopy.byte_at b x = None.
Proof.
  revert bound.
  induction b as [| s rest IH]; intros bound Hwf Hx; simpl.
  - reflexivity.
  - destruct Hwf as (Hlt & Hne & Hrest).
    destruct (Z.leb_spec (bincopy.address s) x); cbn [andb]; [lia |].
    apply (IH (bincopy.seg_end s)); [assumption |].
    unfold bincopy.seg_end. pose proof (len_nonneg (bincopy.data s)). lia.
Qed.

(** A stored byte lies in one of the runs. *)
Lemma byte_at_some_in (b : bincopy.BinFile) (x : Z) (v : byte) :
  bincopy.byte_at b x = Some v ->
  exists s, In s b /\ bincopy.address s <= x < bincopy.seg_end s
            /\ nth_error (bincopy.data s) (Z.to_nat (x - bincopy.address s))
               = Some v.
Proof.
  induction b as [| s rest IH]; simpl; [discriminate |].
  destruct (Z.leb_spec (bincopy.address s) x);
    destruct (Z.ltb_spec x (bincopy.seg_end s)); cbn [andb]; intro Hv.
  1: { exists s. repeat split; auto; lia. }
  all: destruct (IH Hv) as (s' & Hin & Hr); exists s'; split; auto.
Qed.

Lemma nth_error_in_range (d : list byte) (i : Z) :
  0 <= i < len d -> nth_error d (Z.to_nat i) <> None.
Proof. unfold len. intro H. apply nth_error_Some. lia. Qed.

(** The store after the ordered insertion of a run that collides with
    nothing: it stays ordered, holds the run's bytes at the run's addresses
    and every other byte where it was, and one stored run contains the
    inserted one. *)
Lemma insert_spec (b : bincopy.BinFile) :
  forall (bound : Z) (run : bincopy.Segment),
    bincopy.wf_from bound b ->
    bound < bincopy.address run ->
    bincopy.data run <> [] ->
    bincopy.range_free b (bincopy.address run) (len (bincopy.data run)) ->
    bincopy.wf_from bound (bincopy.insert b run)
    /\ (forall x,
           bincopy.byte_at (bincopy.insert b run) x =
           if (bincopy.address run <=? x) && (x <? bincopy.seg_end run)
           then nth_error (bincopy.data run)
                          (Z.to_nat (x - bincopy.address run))
           else bincopy.byte_at b x)
    /\ (exists s, In s (bincopy.insert b run)
                  /\ bincopy.address s <= bincopy.address run
                  /\ firstn (List.length (bincopy.data run))
                            (skipn (Z.to_nat (bincopy.address run
                                              - bincopy.address s))
                                   (bincopy.data s))
                     = bincopy.data run).
Proof.
  induction b as [| s rest IH]; intros bound run Hwf Hb Hne Hfree.
  - simpl. repeat split; auto.
    exists run. repeat split; [now left | lia |].
    rewrite Z.sub_diag. simpl. apply firstn_all.
  - destruct Hwf as (Hlt & Hs & Hrest).
    pose proof (len_pos _ Hne) as Hrun. pose proof (len_pos _ Hs) as Hlen.
    cbn [bincopy.insert].
    destruct (Z.ltb_spec (bincopy.seg_end run) (bincopy.address s)) as [E1 | E1].
    { (* strictly before the first run *)
      repeat split; cbn [bincopy.wf_from]; auto.
      exists run. repeat split; [now left | lia |].
      rewrite Z.sub_diag. simpl. apply firstn_all. }
    destruct (Z.eqb_spec (bincopy.seg_end run) (bincopy.address s)) as [E2 | E2].
    { (* contiguous before the first run *)
      repeat split; cbn [bincopy.wf_from bincopy.address bincopy.data]; auto.
      - intro H. apply app_eq_nil in H. tauto.
      - unfold bincopy.seg_end in *. cbn [bincopy.address bincopy.data].
        rewrite len_app.
        replace (bincopy.address run + (len (bincopy.data run)
                                        + len (bincopy.data s)))
          with (bincopy.address s + len (bincopy.data s)) by lia.
        assumption.
      - intro x. cbn [bincopy.byte_at bincopy.address bincopy.data].
        unfold bincopy.seg_end in *. cbn [bincopy.address bincopy.data].
        rewrite len_app. unfold len in *.
        bool_cases; try lia; try reflexivity; app_cases.
      - exists (bincopy.mkSegment (bincopy.address run)
                                  (bincopy.data run ++ bincopy.data s)).
        repeat split; [now left | simpl; lia |].
        cbn [bincopy.address bincopy.data]. rewrite Z.sub_diag. simpl.
        apply firstn_length_app. }
    destruct (Z.eqb_spec (bincopy.seg_end s) (bincopy.address run)) as [E3 | E3].
    { (* contiguous after the first run: coalesce and go on *)
      set (run' := bincopy.mkSegment (bincopy.address s)
                                     (bincopy.data s ++ bincopy.data run)).
      destruct (IH bound run') as (W & B & s' & Hin & Hle & Hsub).
      - apply (wf_from_weaken _ (bincopy.seg_end s)); [assumption |].
        unfold bincopy.seg_end. lia.
      - assumption.
      - simpl. intro H. apply app_eq_nil in H. tauto.
      - intros x Hx. subst run'. cbn [bincopy.address bincopy.data] in Hx.
        rewrite len_app in Hx.
        destruct (Z.le_gt_cases x (bincopy.seg_end s)) as [Hx' | Hx'].
        + apply (byte_at_below_bound _ (bincopy.seg_end s)); assumption.
        + specialize (Hfree x). cbn [bincopy.byte_at] in Hfree.
          unfold bincopy.seg_end in *.
          destruct (Z.ltb_spec x (bincopy.address s + len (bincopy.data s)));
            [lia |].
          rewrite andb_false_r in Hfree. apply Hfree. lia.
      - repeat split; [assumption | |].
        + intro x. rewrite B. subst run'. cbn [bincopy.byte_at].
          unfold bincopy.seg_end in *. cbn [bincopy.address bincopy.data].
          rewrite len_app. unfold len in *.
          bool_cases; try lia; try reflexivity; app_cases.
        + exists s'. repeat split; [assumption | |].
          * subst run'. cbn [bincopy.address] in Hle.
            unfold bincopy.seg_end in E3. lia.
          * subst run'. cbn [bincopy.address bincopy.data] in Hsub, Hle.
            apply firstn_skipn_suffix in Hsub.
            rewrite skipn_skipn in Hsub.
            replace (Z.to_nat (bincopy.address run - bincopy.address s'))
              with (List.length (bincopy.data s)
                    + Z.to_nat (bincopy.address s - bincopy.address s'))%nat;
              [assumption |].
            unfold bincopy.seg_end, len in E3. lia. }
    (* strictly after the first run *)
    assert (Hafter : bincopy.seg_end s < bincopy.address run).
    { destruct (Z.lt_ge_cases (bincopy.address run) (bincopy.seg_end s))
        as [Hov | Hov]; [exfalso | lia].
      set (x := Z.max (bincopy.address run) (bincopy.address s)).
      assert (Hx : bincopy.address run <= x < bincopy.address run
                                              + len (bincopy.data run)).
      { unfold bincopy.seg_end in *. lia. }
      specialize (Hfree x Hx). cbn [bincopy.byte_at] in Hfree.
      unfold bincopy.seg_end in *.
      destruct (Z.leb_spec (bincopy.address s) x); [| lia].
      destruct (Z.ltb_spec x (bincopy.address s + len (bincopy.data s)));
        [| lia].
      cbn [andb] in Hfree. revert Hfree. apply nth_error_in_range. lia. }
    destruct (IH (bincopy.seg_end s) run) as (W & B & s' & Hin & Hle & Hsub);
      try assumption.
    { intros x Hx. specialize (Hfree x Hx). cbn [bincopy.byte_at] in Hfree.
      destruct (Z.ltb_spec x (bincopy.seg_end s)); [lia |].
      rewrite andb_false_r in Hfree. exact Hfree. }
    repeat split; cbn [bincopy.wf_from]; auto.
    + intro x. cbn [bincopy.byte_at]. rewrite B.
      unfold bincopy.seg_end in *.
      bool_cases; try lia; reflexivity.
    + exists s'. repeat split; [now right | assumption | assumption].
Qed.

Lemma first_conflict_none (b : bincopy.BinFile) (d : list byte) :
  forall a, bincopy.first_conflict b a d = None
            <-> bincopy.range_free b a (len d).
Proof.
  induction d as [| c d IH]; intro a; cbn [bincopy.first_conflict].
  - split; [| reflexivity]. intros _ x Hx. unfold len in Hx. simpl in Hx. lia.
  - destruct (bincopy.byte_at b a) eqn:E.
    + split; [discriminate |]. intro H. rewrite (H a) in E; [discriminate |].
      pose proof (len_nonneg d). unfold len in *. simpl. lia.
    + rewrite IH. unfold bincopy.range_free, len. simpl List.length.
      split; intros H x Hx.
      * destruct (Z.eq_dec x a) as [-> | Hn]; [assumption | apply H; lia].
      * apply H. lia.
Qed.

(** A successful add: nothing was stored in the range before, the store
    stays ordered, the new bytes are where they were put and the others
    where they were, and one stored run contains the added one. *)
Lemma add_binary_inr (b b' : bincopy.BinFile) (d : list byte) (a : Z) :
  bincopy.wf b ->
  bincopy.add_binary b d a = inr b' ->
  bincopy.range_free b a (len d)
  /\ bincopy.wf b'
  /\ (forall x,
         bincopy.byte_at b' x =
         if (a <=? x) && (x <? a + len d)
         then nth_error d (Z.to_nat (x - a))
         else bincopy.byte_at b x)
  /\ (d <> [] ->
      exists s, In s b' /\ bincopy.address s <= a
                /\ firstn (List.length d)
                          (skipn (Z.to_nat (a - bincopy.address s))
                                 (bincopy.data s)) = d).
Proof.
  intros [bound Hwf] Hadd. unfold bincopy.add_binary in Hadd.
  destruct d as [| c d'].
  - injection Hadd as <-. repeat split.
    + intros x Hx. unfold len in Hx. simpl in Hx. lia.
    + now exists bound.
    + intro x. unfold len. simpl. bool_cases; try lia; reflexivity.
    + congruence.
  - destruct (bincopy.first_conflict b a (c :: d')) eqn:E; [discriminate |].
    injection Hadd as <-. apply first_conflict_none in E.
    destruct (insert_spec b (Z.min bound (a - 1)) (bincopy.mkSegment a (c :: d')))
      as (W & B & S).
    + apply (wf_from_weaken _ bound); [assumption | lia].
    + simpl. lia.
    + discriminate.
    + exact E.
    + repeat split; [exact E | eexists; exact W | exact B | intros _; exact S].
Qed.

(** An add that finds nothing stored in its range succeeds. *)
Lemma add_binary_free (b : bincopy.BinFile) (d : list byte) (a : Z) :
  bincopy.range_free b a (len d) ->
  exists b', bincopy.add_binary b d a = inr b'.
Proof.
  intro H. unfold bincopy.add_binary. destruct d as [| c d']; [eauto |].
  apply first_conflict_none in H. rewrite H. eauto.
Qed.

(** An add whose first position is taken fails there. *)
Lemma add_binary_taken (b : bincopy.BinFile) (d : list byte) (a : Z) :
  d <> [] -> bincopy.byte_at b a <> None ->
  bincopy.add_binary b d a = inl (bincopy.CollisionError a).
Proof.
  intros Hd Hb. unfold bincopy.add_binary.
  destruct d as [| c d']; [congruence |].
  cbn [bincopy.first_conflict].
  destruct (bincopy.byte_at b a); [reflexivity | congruence].
Qed.

(** ** Writing into the image *)

Lemma add_bytes_to_image_inside (self : EPROM) (addr : Z) (data : list byte) :
  offset self <= addr -> addr + len data <= offset self + size self ->
  _add_bytes_to_image addr data self =
  (ok tt, set_image self
            (slice_assign (image self) (addr - offset self)
                          (addr - offset self + len data) data)).
Proof.
  intros H1 H2. unfold _add_bytes_to_image.
  destruct (Z.ltb_spec addr (offset self)); [lia |].
  destruct (Z.gtb_spec (addr - offset self + len data) (size self)); [lia |].
  reflexivity.
Qed.

Lemma add_bytes_to_image_below (self : EPROM) (addr : Z) (data : list byte) :
  addr < offset self ->
  _add_bytes_to_image addr data self =
  (raise (Error (Msg (msg_below_offset addr (offset self)))), self).
Proof.
  intro H. unfold _add_bytes_to_image.
  destruct (Z.ltb_spec addr (offset self)); [reflexivity | lia].
Qed.

Lemma add_bytes_to_image_past (self : EPROM) (addr : Z) (data : list byte) :
  offset self <= addr -> offset self + size self < addr + len data ->
  _add_bytes_to_image addr data self =
  (raise (Error (Msg (msg_past_end (len data) addr (size self)))), self).
Proof.
  intros H1 H2. unfold _add_bytes_to_image.
  destruct (Z.ltb_spec addr (offset self)); [lia |].
  destruct (Z.gtb_spec (addr - offset self + len data) (size self)); [| lia].
  reflexivity.
Qed.

(** A write that succeeds lay inside the window. *)
Lemma add_bytes_to_image_ok_inv (self self' : EPROM) (addr : Z)
      (data : list byte) :
  _add_bytes_to_image addr data self = (ok tt, self') ->
  offset self <= addr /\ addr + len data <= offset self + size self
  /\ self' = set_image self
               (slice_assign (image self) (addr - offset self)
                             (addr - offset self + len data) data).
Proof.
  unfold _add_bytes_to_image.
  destruct (Z.ltb_spec addr (offset self)); [discriminate |].
  destruct (Z.gtb_spec (addr - offset self + len data) (size self));
    [discriminate |].
  intro Hr. injection Hr as <-. repeat split; lia.
Qed.

Lemma add_bytes_ok_inv (self self' : EPROM) (addr : Z) (data : list byte) :
  add_bytes addr data self = (ok tt, self') ->
  exists b,
    bincopy.add_binary (binfile self) data addr = inr b
    /\ offset self <= addr /\ addr + len data <= offset self + size self
    /\ self' = set_image (set_binfile self b)
                 (slice_assign (image self) (addr - offset self)
                               (addr - offset self + len data) data).
Proof.
  unfold add_bytes.
  destruct (bincopy.add_binary (binfile self) data addr) as [e | b];
    [discriminate |].
  intro H. apply add_bytes_to_image_ok_inv in H. exists b. tauto.
Qed.

Lemma wf_image_len (self : EPROM) : wf self -> len (image self) = Z.max 0 (size self).
Proof. intros [H _]. unfold len. rewrite H. lia. Qed.

(** ** The window of the image *)

(** C2. For an image with window [[offset, offset + size)]: a run starting
    at [offset - 1] is refused (it starts before the window); a run that
    starts inside the window and ends exactly at [offset + size] is accepted
    and its bytes are in the buffer at the window-relative positions, the
    rest of the buffer being as before; a run ending at [offset + size + 1]
    is refused. *)
Theorem add_bytes_to_image_window_edges (self : EPROM) (data : list byte) :
  _add_bytes_to_image (offset self - 1) data self
  = (raise (Error (Msg (msg_below_offset (offset self - 1) (offset self)))),
     self)
  /\ (forall addr,
         wf self ->
         offset self <= addr ->
         addr + len data = offset self + size self ->
         exists self',
           _add_bytes_to_image addr data self = (ok tt, self')
           /\ offset self' = offset self /\ size self' = size self
           /\ binfile self' = binfile self
           /\ (forall i, 0 <= i < len data ->
                         index (image self') (addr - offset self + i)
                         = nth_error data (Z.to_nat i))
           /\ (forall j, j < addr - offset self ->
                         index (image self') j = index (image self) j))
  /\ (forall addr,
         addr + len data = offset self + size self + 1 ->
         exists msg,
           _add_bytes_to_image addr data self = (raise (Error (Msg msg)), self)
           /\ (offset self <= addr ->
               msg = msg_past_end (len data) addr (size self))).
Proof.
  split; [| split].
  - apply add_bytes_to_image_below. lia.
  - intros addr Hwf Hlo Hhi.
    eexists. split; [apply add_bytes_to_image_inside; lia |].
    cbn [offset size binfile image set_image].
    pose proof (wf_image_len self Hwf) as Hlen.
    pose proof (len_nonneg data).
    repeat split.
    + intros i Hi. rewrite index_slice_assign by lia.
      destruct (Z.leb_spec (addr - offset self) (addr - offset self + i));
        [| lia].
      destruct (Z.ltb_spec (addr - offset self + i)
                           (addr - offset self + len data)); [| lia].
      cbn [andb]. f_equal. lia.
    + intros j Hj. rewrite index_slice_assign by lia.
      destruct (Z.leb_spec (addr - offset self) j); [lia | reflexivity].
  - intros addr Hend.
    destruct (Z.lt_ge_cases addr (offset self)) as [Hlt | Hge].
    + eexists. split; [apply add_bytes_to_image_below; assumption | lia].
    + eexists. split; [apply add_bytes_to_image_past; lia | reflexivity].
Qed.

Lemma add_bytes_to_image_window_edges_witness :
  let self := EPROM_init 16 32 in
  exists self',
    _add_bytes_to_image 46 [x61; x62] self = (ok tt, self')
    /\ index (image self') 14 = Some x61
    /\ index (image self') 15 = Some x62
    /\ index (image self') 13 = Some xff.
Proof.
  intro self.
  destruct (add_bytes_to_image_window_edges self [x61; x62]) as (_ & H & _).
  destruct (H 46) as (self' & Hrun & _ & _ & _ & Hin & Hout).
  - split; [reflexivity | exists 0; exact I].
  - vm_compute. discriminate.
  - reflexivity.
  - exists self'. split; [exact Hrun |].
    split; [exact (Hin 0 ltac:(vm_compute; split; [discriminate | reflexivity])) |].
    split; [exact (Hin 1 ltac:(vm_compute; split; [discriminate | reflexivity])) |].
    rewrite (Hout 13 ltac:(reflexivity)). reflexivity.
Defined.

(** ** The checksum *)

(** C3. The checksum is the sum of the buffer's bytes modulo 0x10000; a
    freshly created image of capacity [C] has checksum [(0xFF * C) mod
    0x10000]; writing one byte into the window moves the checksum by the
    difference between the new and the old byte, modulo 0x10000. *)
Theorem checksum_sum_mod_65536 :
  (forall self, checksum self = sum (image self) mod 0x10000)
  /\ (forall C offset,
         0 <= C -> checksum (EPROM_init C offset) = (0xFF * C) mod 0x10000)
  /\ (forall self addr new old,
         wf self ->
         index (image self) (addr - offset self) = Some old ->
         exists self',
           _add_bytes_to_image addr [new] self = (ok tt, self')
           /\ index (image self') (addr - offset self) = Some new
           /\ checksum self'
              = (checksum self + (byte_val new - byte_val old)) mod 0x10000).
Proof.
  split; [exact checksum_mod | split].
  - intros C off HC. rewrite checksum_mod. cbn [image EPROM_init].
    rewrite sum_repeat. f_equal. change (byte_val xff) with 255. lia.
  - intros self addr new old Hwf Hold.
    pose proof (index_some_bounds _ _ _ Hold) as Hb.
    pose proof (wf_image_len self Hwf) as Hlen.
    assert (Hl : len [new] = 1) by reflexivity.
    eexists. split; [apply add_bytes_to_image_inside; lia |].
    cbn [image set_image]. split.
    + rewrite index_slice_assign by lia.
      destruct (Z.leb_spec (addr - offset self) (addr - offset self)); [| lia].
      destruct (Z.ltb_spec (addr - offset self)
                           (addr - offset self + len [new])); [| lia].
      cbn [andb]. rewrite Z.sub_diag. reflexivity.
    + rewrite !checksum_mod. cbn [image set_image].
      rewrite sum_slice_assign by lia.
      assert (Hs : firstn (List.length [new])
                          (skipn (Z.to_nat (addr - offset self)) (image self))
                   = [old]).
      { unfold index in Hold.
        destruct (addr - offset self <? 0); [discriminate |].
        revert Hold. generalize (Z.to_nat (addr - offset self)).
        generalize (image self). clear.
        intros l n. revert l.
        induction n as [| n IH]; intros [| a l] H; simpl in *;
          try discriminate.
        - injection H as ->. reflexivity.
        - apply IH. assumption. }
      rewrite Hs. rewrite !sum_cons. change (sum []) with 0.
      rewrite Zplus_mod_idemp_l. f_equal. lia.
Qed.

Lemma checksum_sum_mod_65536_witness :
  checksum (EPROM_init 1024 0) = (0xFF * 1024) mod 0x10000
  /\ exists self',
      _add_bytes_to_image 6 [x61] (EPROM_init 16 0) = (ok tt, self')
      /\ index (image self') (6 - 0) = Some x61
      /\ checksum self'
         = (checksum (EPROM_init 16 0) + (byte_val x61 - byte_val xff))
             mod 0x10000.
Proof.
  destruct checksum_sum_mod_65536 as (_ & Hfresh & Hwrite).
  split.
  - apply Hfresh. discriminate.
  - apply (Hwrite (EPROM_init 16 0) 6 x61 xff).
    + split; [reflexivity | exists 0; exact I].
    + reflexivity.
Defined.

(** ** Scenarios *)

(** C4, as amended. A 16-byte image at offset 0 after adding the bytes 0x61
    0x62 at address 6: the checksum is 0xFF*14 + 0x61 + 0x62, which is 0xEB5,
    and the chunk iterator yields the single chunk (6, [0x61, 0x62]). *)
Theorem scenario_16_bytes_two_at_6 :
  exists self,
    add_bytes 6 [x61; x62] (EPROM_init 16 0) = (ok tt, self)
    /\ checksum self = 0xFF * 14 + 0x61 + 0x62
    /\ checksum self = 0xEB5
    /\ chunks self = [(6, [x61; x62])].
Proof.
  eexists. split; [vm_compute; reflexivity |].
  repeat split; vm_compute; reflexivity.
Qed.

(** C4, as stated, fails: the checksum of that image is 0xEB5, not 0xF6B. *)
Lemma scenario_16_bytes_checksum_is_not_0xF6B :
  exists self,
    add_bytes 6 [x61; x62] (EPROM_init 16 0) = (ok tt, self)
    /\ checksum self = 0xEB5
    /\ checksum self <> 0xF6B.
Proof.
  eexists. split; [vm_compute; reflexivity |].
  split; vm_compute; [reflexivity | discriminate].
Qed.

(** ** Collisions *)

Lemma len_slice_assign (a : list byte) (start : Z) (data : list byte) :
  0 <= start -> start + len data <= len a ->
  len (slice_assign a start (start + len data) data) = len a.
Proof.
  intros H0 H1. unfold len at 1 3. f_equal. now apply length_slice_assign.
Qed.

(** C1, as amended. After a successful [add_bytes] of [d1] at [A], an
    [add_bytes] of non-empty data at any address of [[A, A + len d1)] fails
    with the collision error and changes nothing; an [add_bytes] whose range
    holds no stored byte and lies inside the window succeeds, and the bytes
    of the first run are still in the store and in the buffer. *)
Theorem add_bytes_collision_and_disjoint
        (self self1 : EPROM) (A : Z) (d1 : list byte) :
  wf self ->
  add_bytes A d1 self = (ok tt, self1) ->
  (forall B d2,
      d2 <> [] -> A <= B < A + len d1 ->
      add_bytes B d2 self1 = (raise (Error (Msg (msg_add_bytes B))), self1))
  /\ (forall B d2,
         bincopy.range_free (binfile self1) B (len d2) ->
         offset self1 <= B -> B + len d2 <= offset self1 + size self1 ->
         exists self2,
           add_bytes B d2 self1 = (ok tt, self2)
           /\ forall i,
               0 <= i < len d1 ->
               bincopy.byte_at (binfile self2) (A + i)
               = nth_error d1 (Z.to_nat i)
               /\ index (image self2) (A + i - offset self2)
                  = nth_error d1 (Z.to_nat i)).
Proof.
  intros Hwf Hadd.
  apply add_bytes_ok_inv in Hadd as (b1 & Hb1 & Hlo & Hhi & ->).
  destruct (add_binary_inr _ _ _ _ (proj2 Hwf) Hb1) as (_ & Hwf1 & Hat1 & _).
  pose proof (wf_image_len self Hwf) as Hlen.
  pose proof (len_nonneg d1) as Hd1.
  assert (Hcov : forall i, 0 <= i < len d1 ->
                           bincopy.byte_at b1 (A + i)
                           = nth_error d1 (Z.to_nat i)).
  { intros i Hi. rewrite Hat1.
    destruct (Z.leb_spec A (A + i)); [| lia].
    destruct (Z.ltb_spec (A + i) (A + len d1)); [| lia].
    cbn [andb]. f_equal. lia. }
  split.
  - intros B d2 Hd2 HB. unfold add_bytes.
    cbn [binfile set_image set_binfile].
    rewrite add_binary_taken; [reflexivity | assumption |].
    replace B with (A + (B - A)) by lia. rewrite Hcov by lia.
    apply nth_error_in_range. lia.
  - cbn [binfile offset size set_image set_binfile].
    intros B d2 Hfree Hlo2 Hhi2.
    pose proof (len_nonneg d2) as Hd2.
    destruct (add_binary_free b1 d2 B Hfree) as [b2 Hb2].
    destruct (add_binary_inr _ _ _ _ Hwf1 Hb2) as (_ & Hwf2 & Hat2 & _).
    eexists. split.
    { unfold add_bytes. cbn [binfile set_image set_binfile]. rewrite Hb2.
      apply add_bytes_to_image_inside;
        cbn [offset size set_binfile set_image]; lia. }
    intros i Hi. cbn [binfile image offset set_image set_binfile].
    assert (Hout : ~ (B <= A + i < B + len d2)).
    { intro Hin. specialize (Hfree (A + i) Hin). rewrite Hcov in Hfree by lia.
      revert Hfree. apply nth_error_in_range. lia. }
    split.
    + rewrite Hat2.
      destruct (Z.leb_spec B (A + i));
        destruct (Z.ltb_spec (A + i) (B + len d2)); cbn [andb];
        try lia; apply Hcov; lia.
    + rewrite index_slice_assign;
        [| lia | rewrite len_slice_assign by lia; lia].
      destruct (Z.leb_spec (B - offset self) (A + i - offset self));
        destruct (Z.ltb_spec (A + i - offset self)
                             (B - offset self + len d2)); cbn [andb];
        try lia.
      all: rewrite index_slice_assign by lia.
      all: destruct (Z.leb_spec (A - offset self) (A + i - offset self));
        [| lia].
      all: destruct (Z.ltb_spec (A + i - offset self)
                                (A - offset self + len d1)); [| lia].
      all: cbn [andb]; f_equal; lia.
Qed.

Lemma add_bytes_collision_and_disjoint_witness :
  let self1 := snd (add_bytes 6 [x61; x62] (EPROM_init 16 0)) in
  add_bytes 7 [x78] self1 = (raise (Error (Msg (msg_add_bytes 7))), self1)
  /\ exists self2,
      add_bytes 10 [x78; x79] self1 = (ok tt, self2)
      /\ forall i,
          0 <= i < len [x61; x62] ->
          bincopy.byte_at (binfile self2) (6 + i)
          = nth_error [x61; x62] (Z.to_nat i)
          /\ index (image self2) (6 + i - offset self2)
             = nth_error [x61; x62] (Z.to_nat i).
Proof.
  intro self1.
  destruct (add_bytes_collision_and_disjoint
              (EPROM_init 16 0) self1 6 [x61; x62]) as (Hcol & Hdis).
  - split; [reflexivity | exists 0; exact I].
  - reflexivity.
  - split.
    + apply Hcol; [discriminate | vm_compute; split; [discriminate | reflexivity]].
    + apply Hdis.
      * intros x Hx. unfold len in Hx. simpl in Hx.
        assert (Hc : x = 10 \/ x = 11) by lia.
        destruct Hc as [-> | ->]; reflexivity.
      * vm_compute. discriminate.
      * vm_compute. discriminate.
Defined.

(** C1, as stated, fails: a run disjoint from every stored run is refused
    when it lies outside the window. *)
Lemma add_bytes_disjoint_outside_window_fails :
  let self1 := snd (add_bytes 6 [x61; x62] (EPROM_init 16 0)) in
  add_bytes 6 [x61; x62] (EPROM_init 16 0) = (ok tt, self1)
  /\ bincopy.segments (binfile self1) = [bincopy.mkSegment 6 [x61; x62]]
  /\ bincopy.first_conflict (binfile self1) 100 [x78] = None
  /\ fst (add_bytes 100 [x78] self1)
     = raise (Error (Msg (msg_past_end 1 100 16))).
Proof. vm_compute. repeat split. Qed.

(** ** Failing on the bounds after the store was updated *)

(** C10. For non-empty data whose range holds no stored byte but starts
    before the offset or ends past [offset + size], [add_bytes] raises the
    bounds error with the run already in the store: the buffer is as before,
    every byte of the run can be read back from the store, and one chunk of
    [chunks()] contains the run at its window-relative address. *)
Theorem add_bytes_records_run_before_bounds_error
        (self : EPROM) (addr : Z) (data : list byte) :
  wf self ->
  data <> [] ->
  bincopy.range_free (binfile self) addr (len data) ->
  addr < offset self \/ offset self + size self < addr + len data ->
  exists self',
    add_bytes addr data self
    = (raise (Error (Msg (if addr <? offset self
                          then msg_below_offset addr (offset self)
                          else msg_past_end (len data) addr (size self)))),
       self')
    /\ image self' = image self
    /\ offset self' = offset self /\ size self' = size self
    /\ wf self'
    /\ (forall i, 0 <= i < len data ->
                  bincopy.byte_at (binfile self) (addr + i) = None
                  /\ bincopy.byte_at (binfile self') (addr + i)
                     = nth_error data (Z.to_nat i))
    /\ (exists rel d,
           In (rel, d) (chunks self')
           /\ rel <= addr - offset self'
           /\ firstn (List.length data)
                     (skipn (Z.to_nat (addr - offset self' - rel)) d) = data).
Proof.
  intros Hwf Hne Hfree Hout.
  destruct (add_binary_free _ _ _ Hfree) as [b Hb].
  destruct (add_binary_inr _ _ _ _ (proj2 Hwf) Hb) as (_ & Hwfb & Hat & Hs).
  destruct (Hs Hne) as (s & Hin & Hle & Hsub).
  exists (set_binfile self b). unfold add_bytes. rewrite Hb.
  repeat split; cbn [image offset size binfile set_binfile]; try apply Hwf;
    try assumption.
  - destruct (Z.ltb_spec addr (offset self)).
    + apply (add_bytes_to_image_below (set_binfile self b)). assumption.
    + apply (add_bytes_to_image_past (set_binfile self b));
        cbn [offset size set_binfile]; lia.
  - apply Hfree. lia.
  - rewrite Hat.
    destruct (Z.leb_spec addr (addr + i)); [| lia].
    destruct (Z.ltb_spec (addr + i) (addr + len data)); [| lia].
    cbn [andb]. f_equal. lia.
  - exists (bincopy.address s - offset self), (bincopy.data s).
    repeat split.
    + unfold chunks. cbn [binfile offset set_binfile].
      apply (in_map (fun s0 => (bincopy.address s0 - offset self,
                                bincopy.data s0))).
      exact Hin.
    + lia.
    + replace (addr - offset self - (bincopy.address s - offset self))
        with (addr - bincopy.address s) by lia.
      exact Hsub.
Qed.

Lemma add_bytes_records_run_before_bounds_error_witness :
  exists self',
    add_bytes 15 [x61; x62] (EPROM_init 16 0)
    = (raise (Error (Msg (msg_past_end 2 15 16))), self')
    /\ image self' = image (EPROM_init 16 0)
    /\ chunks self' = [(15, [x61; x62])].
Proof.
  destruct (add_bytes_records_run_before_bounds_error
              (EPROM_init 16 0) 15 [x61; x62])
    as (self' & Hrun & Himg & _).
  - split; [reflexivity | exists 0; exact I].
  - discriminate.
  - intros x _. reflexivity.
  - right. reflexivity.
  - exists self'. split; [exact Hrun |]. split; [exact Himg |].
    vm_compute in Hrun. injection Hrun as <-. reflexivity.
Defined.

(** ** Chunks *)

Lemma index_repeat (b : byte) (n : nat) (j : Z) :
  0 <= j < Z.of_nat n -> index (repeat b n) j = Some b.
Proof.
  intro H. unfold index. destruct (Z.ltb_spec j 0); [lia |].
  apply nth_error_repeat. lia.
Qed.

Lemma add_binary_empty_store (d : list byte) (a : Z) :
  d <> [] -> bincopy.add_binary [] d a = inr [bincopy.mkSegment a d].
Proof.
  intro Hd. unfold bincopy.add_binary. destruct d as [| c d']; [congruence |].
  assert (H : bincopy.first_conflict [] a (c :: d') = None).
  { apply first_conflict_none. intros x _. reflexivity. }
  rewrite H. reflexivity.
Qed.

(** A run added above a lone run, a gap apart, is stored after it. *)
Lemma add_binary_above (A B : Z) (d1 d2 : list byte) :
  d1 <> [] -> d2 <> [] -> A + len d1 < B ->
  bincopy.add_binary [bincopy.mkSegment A d1] d2 B
  = inr [bincopy.mkSegment A d1; bincopy.mkSegment B d2].
Proof.
  intros H1 H2 Hgap. unfold bincopy.add_binary.
  pose proof (len_pos _ H1). pose proof (len_pos _ H2).
  destruct d2 as [| c d2']; [congruence |].
  assert (Hfc : bincopy.first_conflict [bincopy.mkSegment A d1] B (c :: d2')
                = None).
  { apply first_conflict_none. intros x Hx. cbn [bincopy.byte_at].
    unfold bincopy.seg_end. cbn [bincopy.address bincopy.data].
    destruct (Z.ltb_spec x (A + len d1)); [lia |].
    rewrite andb_false_r. reflexivity. }
  rewrite Hfc. cbn [bincopy.insert]. unfold bincopy.seg_end.
  cbn [bincopy.address bincopy.data].
  destruct (Z.ltb_spec (B + len (c :: d2')) A); [lia |].
  destruct (Z.eqb_spec (B + len (c :: d2')) A); [lia |].
  destruct (Z.eqb_spec (A + len d1) B); [lia |].
  reflexivity.
Qed.

(** A run added below a lone run, a gap apart, is stored before it. *)
Lemma add_binary_below (A B : Z) (d1 d2 : list byte) :
  d1 <> [] -> d2 <> [] -> A + len d1 < B ->
  bincopy.add_binary [bincopy.mkSegment B d2] d1 A
  = inr [bincopy.mkSegment A d1; bincopy.mkSegment B d2].
Proof.
  intros H1 H2 Hgap. unfold bincopy.add_binary.
  pose proof (len_pos _ H1). pose proof (len_pos _ H2).
  destruct d1 as [| c d1']; [congruence |].
  assert (Hfc : bincopy.first_conflict [bincopy.mkSegment B d2] A (c :: d1')
                = None).
  { apply first_conflict_none. intros x Hx. cbn [bincopy.byte_at].
    cbn [bincopy.address bincopy.data].
    destruct (Z.leb_spec B x); [lia | reflexivity]. }
  rewrite Hfc. cbn [bincopy.insert]. unfold bincopy.seg_end.
  cbn [bincopy.address bincopy.data].
  destruct (Z.ltb_spec (A + len (c :: d1')) B); [| lia].
  reflexivity.
Qed.

(** Two writes a gap apart into a fresh image, in either order: two chunks
    in ascending order, and the gap still erased and in no chunk. *)
Lemma fresh_image_two_writes
      (sz off A B : Z) (d1 d2 : list byte) (low_first : bool) :
  d1 <> [] -> d2 <> [] ->
  off <= A -> A + len d1 < B -> B + len d2 <= off + sz ->
  exists self1 self,
    add_bytes (if low_first then A else B) (if low_first then d1 else d2)
              (EPROM_init sz off) = (ok tt, self1)
    /\ add_bytes (if low_first then B else A) (if low_first then d2 else d1)
                 self1 = (ok tt, self)
    /\ chunks self = [(A - off, d1); (B - off, d2)]
    /\ forall i, A + len d1 <= i < B ->
                 index (image self) (i - off) = Some xff
                 /\ forall rel d, In (rel, d) (chunks self) ->
                                  ~ (rel <= i - off < rel + len d).
Proof.
  intros H1 H2 Hlo Hgap Hhi.
  pose proof (len_pos _ H1). pose proof (len_pos _ H2).
  assert (Hlen : len (repeat xff (Z.to_nat sz)) = sz).
  { unfold len. rewrite repeat_length. lia. }
  assert (Hchunks : forall img,
             chunks {| offset := off; size := sz; image := img;
                       binfile := [bincopy.mkSegment A d1;
                                   bincopy.mkSegment B d2] |}
             = [(A - off, d1); (B - off, d2)]) by reflexivity.
  assert (Hnone : forall i rel d,
             A + len d1 <= i < B ->
             In (rel, d) [(A - off, d1); (B - off, d2)] ->
             ~ (rel <= i - off < rel + len d)).
  { intros i rel d Hi [Hc | [Hc | []]]; injection Hc as <- <-; lia. }
  destruct low_first; unfold add_bytes; cbn [binfile EPROM_init];
    unfold bincopy.empty.
  - rewrite add_binary_empty_store by assumption.
    rewrite add_bytes_to_image_inside
      by (cbn [offset size set_binfile EPROM_init]; lia).
    do 2 eexists. split; [reflexivity |].
    cbn [binfile set_image set_binfile].
    rewrite add_binary_above by assumption.
    rewrite add_bytes_to_image_inside
      by (cbn [offset size set_binfile set_image EPROM_init]; lia).
    split; [reflexivity |].
    cbn [offset size image binfile set_image set_binfile EPROM_init].
    split; [apply Hchunks |].
    intros i Hi. split; [| intros rel d Hin; apply (Hnone i rel d Hi); exact Hin].
    rewrite index_slice_assign;
      [| lia | rewrite len_slice_assign by lia; lia].
    destruct (Z.leb_spec (B - off) (i - off)); [lia |]. cbn [andb].
    rewrite index_slice_assign by lia.
    destruct (Z.ltb_spec (i - off) (A - off + len d1)); [lia |].
    rewrite andb_false_r. apply index_repeat. lia.
  - rewrite add_binary_empty_store by assumption.
    rewrite add_bytes_to_image_inside
      by (cbn [offset size set_binfile EPROM_init]; lia).
    do 2 eexists. split; [reflexivity |].
    cbn [binfile set_image set_binfile].
    rewrite add_binary_below by assumption.
    rewrite add_bytes_to_image_inside
      by (cbn [offset size set_binfile set_image EPROM_init]; lia).
    split; [reflexivity |].
    cbn [offset size image binfile set_image set_binfile EPROM_init].
    split; [apply Hchunks |].
    intros i Hi. split; [| intros rel d Hin; apply (Hnone i rel d Hi); exact Hin].
    rewrite index_slice_assign;
      [| lia | rewrite len_slice_assign by lia; lia].
    destruct (Z.ltb_spec (i - off) (A - off + len d1)); [lia |].
    rewrite andb_false_r.
    rewrite index_slice_assign by lia.
    destruct (Z.leb_spec (B - off) (i - off)); [lia |]. cbn [andb].
    apply index_repeat. lia.
Qed.

(** C5. In a 512-byte image at offset 0, adding "ab" at 0 and "xyz" at 0x20
    gives exactly the two chunks at 0 and 0x20, in ascending order, while the
    region between them is still 0xFF in the buffer and in no chunk.  In
    general a chunk's address is the stored run's address minus the offset,
    and two writes a gap apart into a fresh image, in either order, give the
    two chunks in ascending order with the gap still erased and in no
    chunk. *)
Theorem chunks_keep_gaps_between_writes :
  (exists self1 self,
      add_bytes 0 [x61; x62] (EPROM_init 512 0) = (ok tt, self1)
      /\ add_bytes 0x20 [x78; x79; x7a] self1 = (ok tt, self)
      /\ chunks self = [(0, [x61; x62]); (0x20, [x78; x79; x7a])]
      /\ forall i, 2 <= i < 0x20 ->
                   index (image self) i = Some xff
                   /\ forall rel d, In (rel, d) (chunks self) ->
                                    ~ (rel <= i < rel + len d))
  /\ (forall self,
         chunks self
         = map (fun s => (bincopy.address s - offset self, bincopy.data s))
               (bincopy.segments (binfile self)))
  /\ (forall sz off A B d1 d2 (low_first : bool),
         d1 <> [] -> d2 <> [] ->
         off <= A -> A + len d1 < B -> B + len d2 <= off + sz ->
         exists self1 self,
           add_bytes (if low_first then A else B)
                     (if low_first then d1 else d2)
                     (EPROM_init sz off) = (ok tt, self1)
           /\ add_bytes (if low_first then B else A)
                        (if low_first then d2 else d1) self1 = (ok tt, self)
           /\ chunks self = [(A - off, d1); (B - off, d2)]
           /\ forall i, A + len d1 <= i < B ->
                        index (image self) (i - off) = Some xff
                        /\ forall rel d, In (rel, d) (chunks self) ->
                                         ~ (rel <= i - off < rel + len d)).
Proof.
  split; [| split; [reflexivity | exact fresh_image_two_writes]].
  destruct (fresh_image_two_writes 512 0 0 0x20 [x61; x62] [x78; x79; x7a] true)
    as (self1 & self & Ha & Hb & Hc & Hgap);
    try discriminate; try reflexivity.
  exists self1, self. repeat split; try assumption.
  - specialize (Hgap i ltac:(unfold len; simpl; lia)).
    rewrite Z.sub_0_r in Hgap. apply Hgap.
  - intros rel d Hin.
    specialize (Hgap i ltac:(unfold len; simpl; lia)).
    rewrite Z.sub_0_r in Hgap. now apply Hgap.
Qed.

Lemma chunks_keep_gaps_between_writes_witness :
  exists self1 self,
    add_bytes 0x8010 [x78] (EPROM_init 0x1000 0x8000) = (ok tt, self1)
    /\ add_bytes 0x8000 [x61; x62] self1 = (ok tt, self)
    /\ chunks self = [(0, [x61; x62]); (0x10, [x78])].
Proof.
  destruct chunks_keep_gaps_between_writes as (_ & _ & H).
  destruct (H 0x1000 0x8000 0x8000 0x8010 [x61; x62] [x78] false)
    as (self1 & self & Ha & Hb & Hc & _);
    try discriminate; try reflexivity.
  exists self1, self. repeat split; assumption.
Defined.

(** ** Raw hex decoding *)

Lemma str_app_assoc (a b c : string) :
  ((a ++ b) ++ c = a ++ (b ++ c))%string.
Proof. induction a as [| x a IH]; simpl; [reflexivity | now rewrite IH]. Qed.

Lemma str_app_nil_r (a : string) : (a ++ EmptyString = a)%string.
Proof. induction a as [| x a IH]; simpl; [reflexivity | now rewrite IH]. Qed.

Lemma all_chars_app (p : ascii -> bool) (a b : string) :
  all_chars p (a ++ b) = all_chars p a && all_chars p b.
Proof.
  induction a as [| x a IH]; simpl; [reflexivity |].
  rewrite IH. apply andb_assoc.
Qed.

Lemma is_space_not_hex (c : ascii) : is_space c = true -> is_hex c = false.
Proof.
  destruct c as [[] [] [] [] [] [] [] []]; vm_compute; intro H;
    first [reflexivity | discriminate H].
Qed.

(** Induction over a string two characters at a time. *)
Lemma string_pair_ind (P : string -> Prop) :
  P EmptyString ->
  (forall c, P (String c EmptyString)) ->
  (forall c1 c2 s, P s -> P (String c1 (String c2 s))) ->
  forall s, P s.
Proof.
  intros H0 H1 H2 s.
  assert (H : P s /\ forall c, P (String c s)).
  { induction s as [| a s [IHa IHb]]; split; auto. }
  apply H.
Qed.

Lemma findall_cons2 (c1 c2 : ascii) (rest : string) :
  findall_hex_pairs (String c1 (String c2 rest))
  = if is_hex c1 && is_hex c2
    then String c1 (String c2 EmptyString) :: findall_hex_pairs rest
    else findall_hex_pairs (String c2 rest).
Proof. reflexivity. Qed.

(** A character that is not a digit cannot start a match. *)
Lemma findall_skip_nonhex (c : ascii) (rest : string) :
  is_hex c = false ->
  findall_hex_pairs (String c rest) = findall_hex_pairs rest.
Proof.
  intro Hc. destruct rest as [| c2 r]; [reflexivity |].
  rewrite findall_cons2, Hc. reflexivity.
Qed.

(** On a stretch of digits the matches are its successive pairs. *)
Lemma findall_digits (cur : string) :
  all_chars is_hex cur = true -> findall_hex_pairs cur = digit_pairs cur.
Proof.
  induction cur as [| c | c1 c2 s IH] using string_pair_ind;
    try reflexivity.
  cbn [all_chars]. intro H.
  apply andb_prop in H as [H1 H]. apply andb_prop in H as [H2 H].
  cbn [digit_pairs]. rewrite findall_cons2, H1, H2. cbn [andb].
  now rewrite IH.
Qed.

(** A stretch of digits followed by a character that is not one. *)
Lemma findall_digits_then_nonhex (cur : string) (c : ascii) (rest : string) :
  all_chars is_hex cur = true -> is_hex c = false ->
  findall_hex_pairs (cur ++ String c rest)
  = digit_pairs cur ++ findall_hex_pairs rest.
Proof.
  intros Hcur Hc. revert Hcur.
  induction cur as [| h | c1 c2 s IH] using string_pair_ind; intro Hcur.
  - apply findall_skip_nonhex. assumption.
  - cbn [String.append digit_pairs app]. rewrite findall_cons2, Hc.
    rewrite andb_false_r. apply findall_skip_nonhex. assumption.
  - cbn [all_chars] in Hcur.
    apply andb_prop in Hcur as [H1 H]. apply andb_prop in H as [H2 H].
    cbn [String.append digit_pairs]. rewrite findall_cons2, H1, H2.
    cbn [andb]. rewrite IH by assumption. reflexivity.
Qed.

(** The matches of the regular expression are the digit pairs of the
    stretches of digits. *)
Lemma findall_by_runs (line : string) :
  forall cur,
    all_chars is_hex cur = true ->
    flat_map digit_pairs (hex_runs_from cur line)
    = findall_hex_pairs (cur ++ line).
Proof.
  induction line as [| c line IH]; intros cur Hcur; cbn [hex_runs_from].
  - cbn [flat_map]. rewrite app_nil_r, str_app_nil_r.
    symmetry. now apply findall_digits.
  - destruct (is_hex c) eqn:Hc.
    + rewrite IH.
      * rewrite str_app_assoc. reflexivity.
      * rewrite all_chars_app, Hcur. cbn [all_chars]. now rewrite Hc.
    + cbn [flat_map]. rewrite (IH EmptyString) by reflexivity.
      symmetry. now apply findall_digits_then_nonhex.
Qed.

Lemma findall_hex_runs (line : string) :
  findall_hex_pairs line = flat_map digit_pairs (hex_runs line).
Proof. unfold hex_runs. now rewrite findall_by_runs. Qed.

(** Characters that are not digits produce no match. *)
Lemma findall_nonhex (t : string) :
  all_chars (fun c => negb (is_hex c)) t = true -> findall_hex_pairs t = [].
Proof.
  induction t as [| c t IH]; [reflexivity |].
  cbn [all_chars]. intro H. apply andb_prop in H as [H1 H2].
  rewrite findall_skip_nonhex by (now apply negb_true_iff). auto.
Qed.

(** Trailing characters that are not digits change no match. *)
Lemma findall_trailing_nonhex (t : string) :
  all_chars (fun c => negb (is_hex c)) t = true ->
  forall r, findall_hex_pairs (r ++ t) = findall_hex_pairs r.
Proof.
  intros Ht r.
  assert (H : (forall c, findall_hex_pairs (String c r ++ t)
                         = findall_hex_pairs (String c r))
              /\ findall_hex_pairs (r ++ t) = findall_hex_pairs r).
  { induction r as [| a r [IHc IHr]].
    - split; [| now apply findall_nonhex].
      intro c. cbn [String.append]. destruct t as [| c2 t'].
      + reflexivity.
      + cbn [all_chars] in Ht. apply andb_prop in Ht as [H1 H2].
        apply negb_true_iff in H1.
        rewrite findall_cons2, H1, andb_false_r.
        rewrite findall_skip_nonhex by assumption.
        now apply findall_nonhex.
    - split; [| apply IHc].
      intro c. cbn [String.append]. rewrite !findall_cons2.
      cbn [String.append] in IHc. rewrite IHr, (IHc a). reflexivity. }
  apply H.
Qed.

Lemma findall_lstrip (l : string) :
  findall_hex_pairs (lstrip l) = findall_hex_pairs l.
Proof.
  induction l as [| c l IH]; [reflexivity |]. cbn [lstrip].
  destruct (is_space c) eqn:Hc; [| reflexivity].
  rewrite findall_skip_nonhex by (now apply is_space_not_hex). exact IH.
Qed.

(** What [rstrip] removes is a stretch of blanks at the end. *)
Lemma rstrip_split (l : string) :
  exists t, all_chars is_space t = true /\ l = (rstrip l ++ t)%string.
Proof.
  induction l as [| c l (t & Ht & Hl)].
  - exists EmptyString. split; reflexivity.
  - cbn [rstrip]. destruct (rstrip l) as [| a r] eqn:Hr.
    + destruct (is_space c) eqn:Hc.
      * exists (String c t). cbn [all_chars String.append].
        rewrite Hc, Ht. split; [reflexivity |]. now rewrite Hl at 1.
      * exists t. split; [assumption |]. cbn [String.append].
        now rewrite Hl at 1.
    + exists t. split; [assumption |]. cbn [String.append].
      cbn [String.append] in Hl. now rewrite Hl at 1.
Qed.

Lemma all_space_all_nonhex (t : string) :
  all_chars is_space t = true ->
  all_chars (fun c => negb (is_hex c)) t = true.
Proof.
  induction t as [| c t IH]; [reflexivity |]. cbn [all_chars].
  intro H. apply andb_prop in H as [H1 H2].
  rewrite (is_space_not_hex c H1). cbn [negb andb]. auto.
Qed.

Lemma findall_strip (l : string) :
  findall_hex_pairs (strip l) = findall_hex_pairs l.
Proof.
  unfold strip. rewrite <- (findall_lstrip l).
  destruct (rstrip_split (lstrip l)) as (t & Ht & Hl).
  rewrite Hl at 2. symmetry.
  apply findall_trailing_nonhex. now apply all_space_all_nonhex.
Qed.

(** [lstrip] leaves nothing or a string that starts with a character that
    is not a blank. *)
Lemma lstrip_head (l : string) :
  lstrip l = EmptyString
  \/ exists c r, lstrip l = String c r /\ is_space c = false.
Proof.
  induction l as [| c l IH]; [now left |]. cbn [lstrip].
  destruct (is_space c) eqn:Hc; [exact IH |]. right. eauto.
Qed.

(** The first character of a stripped line is that of the line without its
    leading blanks. *)
Lemma strip_head (l : string) :
  match strip l with
  | EmptyString => lstrip l = EmptyString
  | String c _ => exists r, lstrip l = String c r
  end.
Proof.
  unfold strip. destruct (lstrip_head l) as [-> | (c & r & -> & Hc)].
  - reflexivity.
  - cbn [rstrip]. destruct (rstrip r); [rewrite Hc |]; eauto.
Qed.

Lemma fold_append_bytes (f : string -> byte) (l : list string) :
  forall bb, fold_left (fun bb num => bb ++ [f num]) l bb = bb ++ map f l.
Proof.
  induction l as [| x l IH]; intro bb; simpl.
  - now rewrite app_nil_r.
  - rewrite IH, <- app_assoc. reflexivity.
Qed.

(** What one line of the file adds to the byte array. *)
Lemma import_hex_line_spec (bb : list byte) (line : string) :
  import_hex_line bb line
  = bb ++ (if is_comment line then []
           else map (fun pair => to_byte (int16 pair))
                    (flat_map digit_pairs (hex_runs line))).
Proof.
  unfold import_hex_line, is_comment.
  rewrite <- findall_hex_runs, <- (findall_strip line).
  pose proof (strip_head line) as H.
  destruct (strip line) as [| c r] eqn:Hs.
  - rewrite H. simpl. now rewrite app_nil_r.
  - destruct H as [r' ->].
    destruct (c =? "#")%char; [now rewrite app_nil_r |].
    apply fold_append_bytes.
Qed.

Lemma import_hex_lines_spec (lines : list string) :
  forall bb,
    fold_left import_hex_line lines bb
    = bb ++ flat_map (fun line =>
                        map (fun pair => to_byte (int16 pair))
                            (flat_map digit_pairs (hex_runs line)))
                     (filter (fun line => negb (is_comment line)) lines).
Proof.
  induction lines as [| l lines IH]; intro bb; simpl.
  - now rewrite app_nil_r.
  - rewrite IH, import_hex_line_spec.
    destruct (is_comment l); simpl.
    + now rewrite app_nil_r.
    + now rewrite app_assoc.
Qed.

Lemma import_hex_spec (fs : filesystem) (filename contents : string) :
  fs filename = Some contents ->
  _import_hex fs filename = ok (raw_hex_decode_spec contents).
Proof.
  intro H. unfold _import_hex, raw_hex_decode_spec. rewrite H.
  now rewrite import_hex_lines_spec.
Qed.

Lemma load_file_hex (fs : filesystem) (filename contents : string) (addr : Z)
      (b : bincopy.BinFile) :
  fs filename = Some contents ->
  load_file fs filename addr (Some "hex"%string) b
  = match bincopy.add_binary b (raw_hex_decode_spec contents) addr with
    | inl e => (raise (BincopyError e), b)
    | inr b' => (ok tt, b')
    end.
Proof.
  intro H. unfold load_file. cbn [is_type String.eqb Ascii.eqb Bool.eqb].
  now rewrite (import_hex_spec fs filename contents H).
Qed.

(** C7. A raw hex file decodes as the specification words it: comment lines
    (first non-blank character [#]) are dropped, every character that is
    not a hexadecimal digit is skipped, each pair of adjacent digits gives
    one byte, in order.  [readfile] hands the whole byte sequence to the
    store as one run at the caller's base address; on a fresh image it is the
    only run and its bytes are in the buffer at [addr - offset]; [scanfile]
    places it at the default base address 0. *)
Theorem raw_hex_is_one_run_of_digit_pairs :
  (forall fs filename contents,
      fs filename = Some contents ->
      _import_hex fs filename = ok (raw_hex_decode_spec contents))
  /\ (forall fs filename contents addr b,
         fs filename = Some contents ->
         load_file fs filename addr (Some "hex"%string) b
         = match bincopy.add_binary b (raw_hex_decode_spec contents) addr with
           | inl e => (raise (BincopyError e), b)
           | inr b' => (ok tt, b')
           end)
  /\ (forall fs filename contents addr sz off,
         fs filename = Some contents ->
         _get_filetype fs filename = ok (Some "hex"%string) ->
         raw_hex_decode_spec contents <> [] ->
         off <= addr ->
         addr + len (raw_hex_decode_spec contents) <= off + sz ->
         exists self',
           readfile fs filename addr (EPROM_init sz off)
           = (ok (Some "hex"%string), self')
           /\ bincopy.segments (binfile self')
              = [bincopy.mkSegment addr (raw_hex_decode_spec contents)]
           /\ chunks self' = [(addr - off, raw_hex_decode_spec contents)]
           /\ forall i,
               0 <= i < len (raw_hex_decode_spec contents) ->
               index (image self') (addr - off + i)
               = nth_error (raw_hex_decode_spec contents) (Z.to_nat i))
  /\ (forall as_hexdump fs filename contents,
         fs filename = Some contents ->
         _get_filetype fs filename = ok (Some "hex"%string) ->
         raw_hex_decode_spec contents <> [] ->
         default_addr = 0
         /\ scanfile as_hexdump fs filename
            = ok (Some "hex"%string,
                  0,
                  len (raw_hex_decode_spec contents) - 1,
                  len (raw_hex_decode_spec contents),
                  [(0, len (raw_hex_decode_spec contents) - 1,
                    len (raw_hex_decode_spec contents))],
                  as_hexdump
                    [bincopy.mkSegment 0 (raw_hex_decode_spec contents)])).
Proof.
  split; [exact import_hex_spec | split; [exact load_file_hex | split]].
  - intros fs filename contents addr sz off Hfs Hft Hne Hlo Hhi.
    unfold readfile. rewrite Hft. unfold ok at 1. cbv beta iota.
    rewrite (load_file_hex fs filename contents addr _ Hfs).
    cbn [binfile EPROM_init]. unfold bincopy.empty.
    rewrite add_binary_empty_store by assumption.
    unfold bincopy.segments. cbn [project_segments bincopy.address bincopy.data].
    rewrite add_bytes_to_image_inside
      by (cbn [offset size set_binfile EPROM_init]; lia).
    eexists. split; [reflexivity |].
    cbn [binfile image offset size set_image set_binfile EPROM_init].
    split; [reflexivity | split; [reflexivity |]].
    intros i Hi.
    pose proof (len_nonneg (raw_hex_decode_spec contents)).
    rewrite index_slice_assign;
      [| lia | unfold len at 2; rewrite repeat_length; lia].
    destruct (Z.leb_spec (addr - off) (addr - off + i)); [| lia].
    destruct (Z.ltb_spec (addr - off + i)
                         (addr - off + len (raw_hex_decode_spec contents)));
      [| lia].
    cbn [andb]. f_equal. lia.
  - intros as_hexdump fs filename contents Hfs Hft Hne.
    split; [reflexivity |].
    unfold scanfile. rewrite Hft. unfold ok at 1. cbv beta iota.
    rewrite (load_file_hex fs filename contents default_addr _ Hfs).
    unfold bincopy.empty, default_addr.
    rewrite add_binary_empty_store by assumption.
    cbn [bincopy.segments fold_left app bincopy.minimum_address
         bincopy.maximum_address last].
    unfold scan_chunk, bincopy.seg_end. cbn [bincopy.address bincopy.data].
    unfold ok. cbv beta iota. rewrite Z.add_0_l.
    repeat f_equal. lia.
Qed.

Lemma raw_hex_is_one_run_of_digit_pairs_witness :
  let text := ("# c" ++ String LF "12 3456 G7 8" ++ String CR (String LF " #AB")
               ++ String LF "ab,cd")%string in
  let fs : filesystem :=
    fun name => if (name =? "echo.hex")%string then Some text else None in
  raw_hex_decode_spec text = [x12; x34; x56; xab; xcd]
  /\ _import_hex fs "echo.hex" = ok (raw_hex_decode_spec text)
  /\ exists self',
      readfile fs "echo.hex" 2 (EPROM_init 16 0)
      = (ok (Some "hex"%string), self')
      /\ chunks self' = [(2 - 0, raw_hex_decode_spec text)].
Proof.
  intros text fs.
  destruct raw_hex_is_one_run_of_digit_pairs as (Hdec & _ & Hrun & _).
  split; [reflexivity | split].
  - apply Hdec. reflexivity.
  - destruct (Hrun fs "echo.hex"%string text 2 16 0)
      as (self' & Hr & _ & Hc & _).
    + reflexivity.
    + reflexivity.
    + vm_compute. discriminate.
    + vm_compute. discriminate.
    + vm_compute. discriminate.
    + exists self'. split; assumption.
Defined.

(** ** Scanning *)

Lemma wf_empty : bincopy.wf bincopy.empty.
Proof. exists 0. exact I. Qed.

Lemma add_binary_wf (b b' : bincopy.BinFile) (d : list byte) (a : Z) :
  bincopy.wf b -> bincopy.add_binary b d a = inr b' -> bincopy.wf b'.
Proof. intros Hwf H. now destruct (add_binary_inr _ _ _ _ Hwf H) as (_ & W & _). Qed.

Lemma add_runs_wf (runs : list bincopy.Segment) :
  forall b r b',
    bincopy.wf b -> bincopy.add_runs runs b = (r, b') -> bincopy.wf b'.
Proof.
  induction runs as [| run runs IH]; intros b r b' Hwf H; simpl in H.
  - now injection H as _ <-.
  - destruct (bincopy.add_binary b (bincopy.data run) (bincopy.address run))
      as [e | b1] eqn:E.
    + now injection H as _ <-.
    + apply (IH b1 r b'); [| assumption]. now apply (add_binary_wf b _ _ _ Hwf E).
Qed.

Lemma add_record_file_wf decode (fs : filesystem) (filename : string)
      (b b' : bincopy.BinFile) (r : result unit) :
  bincopy.wf b -> add_record_file decode fs filename b = (r, b') ->
  bincopy.wf b'.
Proof.
  intros Hwf H. unfold add_record_file in H.
  destruct (fs filename) as [contents |]; [| now injection H as _ <-].
  destruct (decode contents) as [e | runs]; [now injection H as _ <- |].
  destruct (bincopy.add_runs runs b) as [[e |] b1] eqn:E;
    injection H as _ <-; now apply (add_runs_wf runs b _ b1 Hwf E).
Qed.

(** Whatever happens while a file is loaded, the store stays ordered. *)
Lemma load_file_wf (fs : filesystem) (filename : string) (addr : Z)
      (ftype : option string) (b b' : bincopy.BinFile) (r : result unit) :
  bincopy.wf b -> load_file fs filename addr ftype b = (r, b') ->
  bincopy.wf b'.
Proof.
  intros Hwf H. unfold load_file in H.
  destruct (is_type ftype "srecord");
    [now apply (add_record_file_wf _ _ _ _ _ _ Hwf H) |].
  destruct (is_type ftype "binary").
  { unfold add_binary_file in H.
    destruct (fs filename) as [contents |]; [| now injection H as _ <-].
    destruct (bincopy.add_binary b (file_bytes contents) addr) as [e | b1] eqn:E;
      injection H as _ <-; [assumption |].
    now apply (add_binary_wf b _ _ _ Hwf E). }
  destruct (is_type ftype "intelhex");
    [now apply (add_record_file_wf _ _ _ _ _ _ Hwf H) |].
  destruct (is_type ftype "hex"); [| now injection H as _ <-].
  destruct (_import_hex fs filename) as [e | bb]; [now injection H as _ <- |].
  destruct (bincopy.add_binary b bb addr) as [e | b1] eqn:E;
    injection H as _ <-; [assumption |].
  now apply (add_binary_wf b _ _ _ Hwf E).
Qed.

(** A file that loads has one of the four types. *)
Lemma load_file_ok_type (fs : filesystem) (filename : string) (addr : Z)
      (ftype : option string) (b b' : bincopy.BinFile) (u : unit) :
  load_file fs filename addr ftype b = (ok u, b') ->
  In ftype [Some "srecord"; Some "hex"; Some "intelhex"; Some "binary"]%string.
Proof.
  unfold load_file, is_type. intro H.
  destruct ftype as [t |]; [| discriminate].
  destruct (String.eqb_spec t "srecord"); [subst; simpl; tauto |].
  destruct (String.eqb_spec t "binary"); [subst; simpl; tauto |].
  destruct (String.eqb_spec t "intelhex"); [subst; simpl; tauto |].
  destruct (String.eqb_spec t "hex"); [subst; simpl; tauto |].
  discriminate.
Qed.

Lemma last_cons_default {A : Type} (l : list A) :
  forall a d, last (a :: l) d = last l a.
Proof.
  induction l as [| x l IH]; intros a d; [reflexivity |].
  change (last (a :: x :: l) d) with (last (x :: l) d).
  now rewrite (IH x d), (IH x a).
Qed.

Lemma last_in {A : Type} (l : list A) :
  forall a, In (last l a) (a :: l).
Proof.
  induction l as [| x l IH]; intro a; [now left |].
  rewrite last_cons_default. right. apply IH.
Qed.

Lemma wf_from_in (b : bincopy.BinFile) :
  forall bound s,
    bincopy.wf_from bound b -> In s b ->
    bound < bincopy.address s /\ bincopy.data s <> [].
Proof.
  induction b as [| s0 rest IH]; intros bound s Hwf Hin; [destruct Hin |].
  destruct Hwf as (H1 & H2 & H3). destruct Hin as [<- | Hin]; [tauto |].
  destruct (IH _ _ H3 Hin) as [Ha Hb]. split; [| assumption].
  unfold bincopy.seg_end in Ha. pose proof (len_nonneg (bincopy.data s0)). lia.
Qed.

(** In an ordered store a byte of a run is read back from that run. *)
Lemma byte_at_in (b : bincopy.BinFile) :
  forall bound s x,
    bincopy.wf_from bound b -> In s b ->
    bincopy.address s <= x < bincopy.seg_end s ->
    bincopy.byte_at b x
    = nth_error (bincopy.data s) (Z.to_nat (x - bincopy.address s)).
Proof.
  induction b as [| s0 rest IH]; intros bound s x Hwf Hin Hx; [destruct Hin |].
  destruct Hwf as (H1 & H2 & H3). cbn [bincopy.byte_at].
  destruct Hin as [<- | Hin].
  - destruct (Z.leb_spec (bincopy.address s0) x); [| lia].
    destruct (Z.ltb_spec x (bincopy.seg_end s0)); [reflexivity | lia].
  - destruct (wf_from_in _ _ _ H3 Hin) as [Ha _].
    destruct (Z.ltb_spec x (bincopy.seg_end s0)); [lia |].
    rewrite andb_false_r. now apply (IH (bincopy.seg_end s0)).
Qed.

(** Every run lies between the start of the first and the end of the
    last. *)
Lemma run_within_extent (rest : bincopy.BinFile) :
  forall bound s0 s,
    bincopy.wf_from bound (s0 :: rest) -> In s (s0 :: rest) ->
    bincopy.address s0 <= bincopy.address s
    /\ bincopy.seg_end s <= bincopy.seg_end (last rest s0).
Proof.
  induction rest as [| s1 rest IH]; intros bound s0 s Hwf Hin.
  - destruct Hin as [<- | []]. simpl. lia.
  - destruct Hwf as (H1 & H2 & H3).
    rewrite last_cons_default.
    pose proof (len_pos _ H2) as Hp.
    assert (Hs1 : bincopy.seg_end s0 < bincopy.address s1) by apply H3.
    unfold bincopy.seg_end in Hs1.
    destruct Hin as [<- | Hin].
    + destruct (IH _ s1 s1 H3 (or_introl eq_refl)) as [_ Hb].
      split; [lia |].
      destruct H3 as (_ & H4 & _). pose proof (len_pos _ H4).
      unfold bincopy.seg_end in *. lia.
    + destruct (IH _ s1 s H3 Hin) as [Ha Hb]. split; [lia | assumption].
Qed.

(** The data of an ordered store fits in its extent, and fills it only when
    the store is a single run. *)
Lemma total_length_extent (rest : bincopy.BinFile) :
  forall bound s0,
    bincopy.wf_from bound (s0 :: rest) ->
    total_length (s0 :: rest)
    <= bincopy.seg_end (last rest s0) - bincopy.address s0
    /\ (rest <> [] ->
        total_length (s0 :: rest)
        < bincopy.seg_end (last rest s0) - bincopy.address s0).
Proof.
  induction rest as [| s1 rest IH]; intros bound s0 Hwf.
  - unfold total_length, bincopy.seg_end. simpl. split; [lia | congruence].
  - destruct Hwf as (H1 & H2 & H3).
    destruct (IH _ s1 H3) as [Hle _].
    rewrite last_cons_default.
    assert (Hs1 : bincopy.seg_end s0 < bincopy.address s1) by apply H3.
    unfold bincopy.seg_end in Hs1.
    change (total_length (s0 :: s1 :: rest))
      with (len (bincopy.data s0) + total_length (s1 :: rest)).
    split; [| intros _]; lia.
Qed.

Lemma fold_append_chunks {A B : Type} (f : A -> B) (l : list A) :
  forall acc, fold_left (fun chunks s => chunks ++ [f s]) l acc
              = acc ++ map f l.
Proof.
  induction l as [| x l IH]; intro acc; simpl.
  - now rewrite app_nil_r.
  - rewrite IH, <- app_assoc. reflexivity.
Qed.

(** C9, as amended. When the file has a recognized type and loads into an
    empty store with some data, [scanfile] returns the type, the lowest and
    the highest occupied address, the extent between them
    ([maxAddress - minAddress + 1]), one (start, end, length) triple per
    stored run and the hex dump of the store, with no image involved.  The
    extent is at least the number of data bytes and equals it exactly when
    the data is one contiguous run. *)
Theorem scanfile_reports_extent
        (as_hexdump : bincopy.BinFile -> string)
        (fs : filesystem) (filename : string)
        (ftype : option string) (b : bincopy.BinFile) :
  _get_filetype fs filename = ok ftype ->
  load_file fs filename default_addr ftype bincopy.empty = (ok tt, b) ->
  b <> [] ->
  exists astart aend,
    scanfile as_hexdump fs filename
    = ok (ftype, astart, aend, aend - astart + 1, map scan_chunk b,
          as_hexdump b)
    /\ In ftype
          [Some "srecord"; Some "hex"; Some "intelhex"; Some "binary"]%string
    /\ bincopy.byte_at b astart <> None
    /\ bincopy.byte_at b aend <> None
    /\ (forall x, bincopy.byte_at b x <> None -> astart <= x <= aend)
    /\ (forall s, In s b ->
                  In (bincopy.address s, bincopy.seg_end s - 1,
                      len (bincopy.data s))
                     (map scan_chunk b))
    /\ total_length b <= aend - astart + 1
    /\ (total_length b = aend - astart + 1 <-> exists s, b = [s]).
Proof.
  intros Hft Hload Hne.
  pose proof (load_file_ok_type _ _ _ _ _ _ _ Hload) as Htype.
  destruct (load_file_wf _ _ _ _ _ _ _ wf_empty Hload) as [bound Hwf].
  destruct b as [| s0 rest]; [congruence |].
  exists (bincopy.address s0), (bincopy.seg_end (last rest s0) - 1).
  destruct (total_length_extent rest bound s0 Hwf) as [Hle Hlt].
  pose proof (last_in rest s0) as Hlast.
  repeat split.
  - unfold scanfile. rewrite Hft. unfold ok at 1. cbv beta iota.
    rewrite Hload. unfold ok at 1. cbv beta iota.
    unfold bincopy.segments. rewrite fold_append_chunks.
    reflexivity.
  - exact Htype.
  - rewrite (byte_at_in _ bound s0) by
        (try assumption; try (now left);
         destruct Hwf as (_ & H2 & _); pose proof (len_pos _ H2);
         unfold bincopy.seg_end; lia).
    destruct Hwf as (_ & H2 & _). pose proof (len_pos _ H2).
    apply nth_error_in_range. lia.
  - destruct (wf_from_in _ _ _ Hwf Hlast) as [_ Hd].
    pose proof (len_pos _ Hd).
    rewrite (byte_at_in _ bound (last rest s0)) by
        (try assumption; unfold bincopy.seg_end; lia).
    apply nth_error_in_range. unfold bincopy.seg_end. lia.
  - destruct (bincopy.byte_at (s0 :: rest) x) as [v |] eqn:E; [| congruence].
    destruct (byte_at_some_in _ _ _ E) as (s & Hin & Hx & _).
    destruct (run_within_extent rest bound s0 s Hwf Hin). lia.
  - destruct (bincopy.byte_at (s0 :: rest) x) as [v |] eqn:E; [| congruence].
    destruct (byte_at_some_in _ _ _ E) as (s & Hin & Hx & _).
    destruct (run_within_extent rest bound s0 s Hwf Hin). lia.
  - intros s Hin.
    apply (in_map scan_chunk) in Hin. exact Hin.
  - lia.
  - intro Heq. destruct rest as [| s1 rest']; [eauto |].
    assert (Hn : s1 :: rest' <> []) by discriminate.
    specialize (Hlt Hn). lia.
  - intros [s Hs]. injection Hs as -> ->.
    unfold total_length, bincopy.seg_end. simpl. lia.
Qed.

Lemma scanfile_reports_extent_witness :
  let text := (":020000006162" ++ "3B" ++ String LF ":0300200078797A72"
               ++ String LF ":00000001FF")%string in
  let fs : filesystem :=
    fun name => if (name =? "two.ihex")%string then Some text else None in
  let b := [bincopy.mkSegment 0 [x61; x62];
            bincopy.mkSegment 0x20 [x78; x79; x7a]] in
  exists astart aend,
    scanfile (fun _ => EmptyString) fs "two.ihex"
    = ok (Some "intelhex"%string, astart, aend, aend - astart + 1,
          map scan_chunk b, EmptyString)
    /\ bincopy.byte_at b astart <> None
    /\ bincopy.byte_at b aend <> None
    /\ total_length b <= aend - astart + 1.
Proof.
  intros text fs b.
  destruct (scanfile_reports_extent (fun _ => EmptyString) fs "two.ihex"
                                    (Some "intelhex"%string) b)
    as (astart & aend & Hscan & _ & Hlo & Hhi & _ & _ & Hle & _).
  - reflexivity.
  - reflexivity.
  - discriminate.
  - exists astart, aend. repeat split; assumption.
Defined.

(** C9, as stated, fails: for a file whose data is two runs with a gap, the
    fourth component is the extent 0x23 of the occupied addresses, while the
    file holds 5 bytes of data.  (The hex dump plays no part; it is rendered
    here as the empty text.) *)
Lemma scanfile_length_is_not_the_data_length :
  let text := (":020000006162" ++ "3B" ++ String LF ":0300200078797A72"
               ++ String LF ":00000001FF")%string in
  let fs : filesystem :=
    fun name => if (name =? "two.ihex")%string then Some text else None in
  scanfile (fun _ => EmptyString) fs "two.ihex"
  = ok (Some "intelhex"%string, 0, 0x22, 0x23,
        [(0, 1, 2); (0x20, 0x22, 3)], EmptyString)
  /\ bincopy.decode_ihex text
     = inr [bincopy.mkSegment 0 [x61; x62];
            bincopy.mkSegment 0x20 [x78; x79; x7a]]
  /\ total_length [bincopy.mkSegment 0 [x61; x62];
                   bincopy.mkSegment 0x20 [x78; x79; x7a]] = 5
  /\ 0x23 <> 5.
Proof. vm_compute. repeat split. discriminate. Qed.

(** ** Choosing the file type *)




(** C6 at an empty [.hex] file: [_get_filetype] indexes the empty first
    line and [readfile] ends in an [IndexError] instead of returning
    ["hex"]. *)
Theorem readfile_empty_hex_file_raises_IndexError :
  let fs : filesystem :=
    fun name => if (name =? "empty.hex")%string then Some EmptyString
                else None in
  splitext "empty.hex" = ("empty", ".hex")%string
  /\ readline EmptyString = EmptyString
  /\ _get_filetype fs "empty.hex" = raise IndexError
  /\ readfile fs "empty.hex" default_addr (EPROM_init 16 0)
     = (raise IndexError, EPROM_init 16 0).
Proof. vm_compute. repeat split. Qed.


(** ** The exceptions the caller sees *)













(** * Further properties of the image *)

(** ** The methods keep the image well formed *)

Lemma add_bytes_to_image_keeps (self : EPROM) (addr : Z) (data : list byte) :
  wf self ->
  wf (snd (_add_bytes_to_image addr data self))
  /\ offset (snd (_add_bytes_to_image addr data self)) = offset self
  /\ size (snd (_add_bytes_to_image addr data self)) = size self
  /\ binfile (snd (_add_bytes_to_image addr data self)) = binfile self.
Proof.
  intro Hwf. unfold _add_bytes_to_image.
  destruct (Z.ltb_spec addr (offset self));
    [cbn [snd]; split; [exact Hwf | repeat split] |].
  destruct (Z.gtb_spec (addr - offset self + len data) (size self));
    [cbn [snd]; split; [exact Hwf | repeat split] |].
  cbn [snd offset size binfile set_image].
  split; [| repeat split].
  split; [| apply Hwf]. cbn [image size set_image].
  pose proof (wf_image_len self Hwf). pose proof (len_nonneg data).
  rewrite length_slice_assign by lia. apply Hwf.
Qed.

Lemma project_segments_keeps (segs : list bincopy.Segment) :
  forall self,
    wf self ->
    wf (snd (project_segments segs self))
    /\ offset (snd (project_segments segs self)) = offset self
    /\ size (snd (project_segments segs self)) = size self
    /\ binfile (snd (project_segments segs self)) = binfile self.
Proof.
  induction segs as [| s segs IH]; intros self Hwf; cbn [project_segments].
  - cbn [snd]. split; [exact Hwf | repeat split].
  - destruct (add_bytes_to_image_keeps self (bincopy.address s)
                                       (bincopy.data s) Hwf)
      as (W & O & S & B).
    destruct (_add_bytes_to_image (bincopy.address s) (bincopy.data s) self)
      as [[e | u] self1]; cbn [snd] in *.
    + split; [exact W | repeat split; assumption].
    + destruct (IH self1 W) as (W' & O' & S' & B').
      split; [exact W' | repeat split; congruence].
Qed.

(** X2. Whatever [add_bytes] and [readfile] do, succeeding or raising, they
    leave an image whose buffer still has [size] bytes and whose store is
    still ordered and free of overlaps, and they never change the offset or
    the size. *)
Theorem methods_keep_image_well_formed (self : EPROM) :
  wf self ->
  (forall addr data,
      wf (snd (add_bytes addr data self))
      /\ offset (snd (add_bytes addr data self)) = offset self
      /\ size (snd (add_bytes addr data self)) = size self
      /\ List.length (image (snd (add_bytes addr data self)))
         = List.length (image self))
  /\ (forall fs filename addr,
         wf (snd (readfile fs filename addr self))
         /\ offset (snd (readfile fs filename addr self)) = offset self
         /\ size (snd (readfile fs filename addr self)) = size self
         /\ List.length (image (snd (readfile fs filename addr self)))
            = List.length (image self)).
Proof.
  intro Hwf. split.
  - intros addr data. unfold add_bytes.
    destruct (bincopy.add_binary (binfile self) data addr) as [e | b] eqn:E.
    + cbn [snd]. split; [exact Hwf | repeat split].
    + assert (W : wf (set_binfile self b)).
      { split; [apply Hwf |]. cbn [binfile set_binfile].
        apply (add_binary_wf _ _ _ _ (proj2 Hwf) E). }
      destruct (add_bytes_to_image_keeps (set_binfile self b) addr data W)
        as (W' & O & S & _).
      split; [exact W' | split; [exact O | split; [exact S |]]].
      destruct W' as [L _]. destruct Hwf as [L0 _].
      rewrite L, L0, S. reflexivity.
  - intros fs filename addr. unfold readfile.
    destruct (_get_filetype fs filename) as [e | ft];
      [cbn [snd]; split; [exact Hwf | repeat split] |].
    destruct (load_file fs filename addr ft (binfile self)) as [r b] eqn:E.
    assert (W : wf (set_binfile self b)).
    { split; [apply Hwf |]. cbn [binfile set_binfile].
      apply (load_file_wf _ _ _ _ _ _ _ (proj2 Hwf) E). }
    assert (Hdone : wf (set_binfile self b)
                    /\ offset (set_binfile self b) = offset self
                    /\ size (set_binfile self b) = size self
                    /\ List.length (image (set_binfile self b))
                       = List.length (image self))
      by (split; [exact W | repeat split]).
    destruct r as [e | u].
    + destruct e; exact Hdone.
    + destruct (project_segments_keeps (bincopy.segments b)
                                       (set_binfile self b) W)
        as (W' & O & S & _).
      destruct (project_segments (bincopy.segments b) (set_binfile self b))
        as [[e | u'] self2]; cbn [snd] in *.
      all: split; [exact W' | split; [exact O | split; [exact S |]]].
      all: destruct W' as [L _]; destruct Hwf as [L0 _].
      all: rewrite L, L0, S; reflexivity.
Qed.

Lemma methods_keep_image_well_formed_witness :
  wf (snd (add_bytes 15 [x61; x62] (EPROM_init 16 0)))
  /\ List.length (image (snd (add_bytes 15 [x61; x62] (EPROM_init 16 0))))
     = List.length (image (EPROM_init 16 0)).
Proof.
  destruct (methods_keep_image_well_formed (EPROM_init 16 0)) as [H _].
  - split; [reflexivity | exists 0; exact I].
  - destruct (H 15 [x61; x62]) as (W & _ & _ & L). split; assumption.
Defined.

(** ** Data that cannot fit *)

(** X3. Data longer than the image never gets in: whatever the address,
    [add_bytes] raises an [Error] and the buffer is left as it was. *)
Theorem add_bytes_longer_than_image_fails
        (self : EPROM) (addr : Z) (data : list byte) :
  size self < len data ->
  exists e self',
    add_bytes addr data self = (raise e, self')
    /\ class_of e = class_Error
    /\ image self' = image self.
Proof.
  intro Hbig. unfold add_bytes.
  destruct (bincopy.add_binary (binfile self) data addr) as [c | b].
  - do 2 eexists. split; [reflexivity | split; reflexivity].
  - destruct (Z.lt_ge_cases addr (offset self)).
    + rewrite (add_bytes_to_image_below (set_binfile self b)) by assumption.
      do 2 eexists. split; [reflexivity | split; reflexivity].
    + rewrite (add_bytes_to_image_past (set_binfile self b))
        by (cbn [offset size set_binfile]; lia).
      do 2 eexists. split; [reflexivity | split; reflexivity].
Qed.

Lemma add_bytes_longer_than_image_fails_witness :
  exists e self',
    add_bytes 0 [x61; x62; x63] (EPROM_init 2 0) = (raise e, self')
    /\ class_of e = class_Error
    /\ image self' = image (EPROM_init 2 0).
Proof.
  apply (add_bytes_longer_than_image_fails (EPROM_init 2 0) 0 [x61; x62; x63]).
  reflexivity.
Defined.

(** ** The buffer is the projection of the store *)

Lemma fresh_image_consistent (sz off : Z) : consistent (EPROM_init sz off).
Proof.
  split; [| split].
  - split; [apply repeat_length | exists 0; exact I].
  - intros j Hj. cbn [image binfile size EPROM_init] in *.
    cbn [bincopy.byte_at bincopy.empty]. apply index_repeat. lia.
  - intros x Hx. now contradiction Hx.
Qed.

(** A successful [add_bytes] keeps buffer and store consistent. *)
Lemma add_bytes_consistent (self self' : EPROM) (addr : Z) (data : list byte) :
  consistent self ->
  add_bytes addr data self = (ok tt, self') ->
  consistent self'.
Proof.
  intros (Hwf & Hproj & Hwin) Hadd.
  apply add_bytes_ok_inv in Hadd as (b & Hb & Hlo & Hhi & ->).
  destruct (add_binary_inr _ _ _ _ (proj2 Hwf) Hb) as (_ & Hwfb & Hat & _).
  pose proof (wf_image_len self Hwf) as Hlen.
  pose proof (len_nonneg data) as Hd.
  split; [| split].
  - split; [| exact Hwfb]. cbn [image size set_image set_binfile].
    rewrite length_slice_assign by lia. apply Hwf.
  - intros j Hj. cbn [image binfile size offset set_image set_binfile] in *.
    rewrite index_slice_assign by lia. rewrite Hat.
    destruct (Z.leb_spec (addr - offset self) j);
      destruct (Z.ltb_spec j (addr - offset self + len data));
      destruct (Z.leb_spec addr (offset self + j));
      destruct (Z.ltb_spec (offset self + j) (addr + len data));
      cbn [andb]; try lia; [| now apply Hproj ..].
    replace (offset self + j - addr) with (j - (addr - offset self)) by lia.
    destruct (nth_error data (Z.to_nat (j - (addr - offset self)))) eqn:E;
      [reflexivity |].
    exfalso. revert E. apply nth_error_in_range. lia.
  - intros x Hx. cbn [binfile offset size set_image set_binfile] in *.
    rewrite Hat in Hx.
    destruct (Z.leb_spec addr x); destruct (Z.ltb_spec x (addr + len data));
      cbn [andb] in Hx; try lia; now apply Hwin.
Qed.

(** In a consistent image every chunk lies inside the window and its bytes
    are in the buffer at the chunk's address. *)
Lemma consistent_chunk_in_buffer (self : EPROM) (rel : Z) (d : list byte) :
  consistent self ->
  In (rel, d) (chunks self) ->
  0 <= rel /\ rel + len d <= size self
  /\ forall i, 0 <= i < len d ->
               index (image self) (rel + i) = nth_error d (Z.to_nat i).
Proof.
  intros (Hwf & Hproj & Hwin) Hin. unfold chunks in Hin.
  apply in_map_iff in Hin as (s & Hs & Hin). injection Hs as <- <-.
  destruct Hwf as [_ [bound Hst]].
  destruct (wf_from_in _ _ _ Hst Hin) as [_ Hne].
  pose proof (len_pos _ Hne) as Hp.
  assert (Hat : forall i, 0 <= i < len (bincopy.data s) ->
                          bincopy.byte_at (binfile self) (bincopy.address s + i)
                          = nth_error (bincopy.data s) (Z.to_nat i)).
  { intros i Hi. rewrite (byte_at_in _ bound s) by
        (try assumption; unfold bincopy.seg_end; lia).
    f_equal. lia. }
  assert (Hin_win : forall i, 0 <= i < len (bincopy.data s) ->
                              offset self <= bincopy.address s + i
                              < offset self + size self).
  { intros i Hi. apply Hwin. rewrite Hat by assumption.
    now apply nth_error_in_range. }
  pose proof (Hin_win 0 ltac:(lia)).
  pose proof (Hin_win (len (bincopy.data s) - 1) ltac:(lia)).
  repeat split; try lia.
  intros i Hi. specialize (Hin_win i Hi).
  rewrite Hproj by lia.
  replace (offset self + (bincopy.address s - offset self + i))
    with (bincopy.address s + i) by lia.
  rewrite Hat by assumption.
  destruct (nth_error (bincopy.data s) (Z.to_nat i)) eqn:E; [reflexivity |].
  exfalso. revert E. now apply nth_error_in_range.
Qed.

(** In a consistent image a position no chunk covers is erased. *)
Lemma consistent_gap_erased (self : EPROM) (j : Z) :
  consistent self ->
  0 <= j < size self ->
  (forall rel d, In (rel, d) (chunks self) -> ~ (rel <= j < rel + len d)) ->
  index (image self) j = Some xff.
Proof.
  intros (Hwf & Hproj & Hwin) Hj Hfree. rewrite Hproj by assumption.
  destruct (bincopy.byte_at (binfile self) (offset self + j)) as [v |] eqn:E;
    [| reflexivity].
  exfalso. destruct (byte_at_some_in _ _ _ E) as (s & Hin & Hx & _).
  apply (Hfree (bincopy.address s - offset self) (bincopy.data s)).
  - unfold chunks.
    apply (in_map (fun s0 => (bincopy.address s0 - offset self,
                              bincopy.data s0))).
    exact Hin.
  - unfold bincopy.seg_end in Hx. lia.
Qed.

(** X4. A fresh image is consistent (its buffer is the projection of its
    store: the stored byte at every stored address of the window, 0xFF
    elsewhere, and nothing stored outside the window), and every successful
    [add_bytes] keeps it so.  In a consistent image every chunk of
    [chunks()] lies inside the buffer with its bytes at the chunk's address,
    and every buffer position outside all chunks is 0xFF. *)
Theorem add_bytes_keeps_buffer_and_chunks_consistent :
  (forall sz off, consistent (EPROM_init sz off))
  /\ (forall self self' addr data,
         consistent self ->
         add_bytes addr data self = (ok tt, self') ->
         consistent self')
  /\ (forall self rel d,
         consistent self ->
         In (rel, d) (chunks self) ->
         0 <= rel /\ rel + len d <= size self
         /\ forall i, 0 <= i < len d ->
                      index (image self) (rel + i) = nth_error d (Z.to_nat i))
  /\ (forall self j,
         consistent self ->
         0 <= j < size self ->
         (forall rel d, In (rel, d) (chunks self) ->
                        ~ (rel <= j < rel + len d)) ->
         index (image self) j = Some xff).
Proof.
  split; [exact fresh_image_consistent |].
  split; [exact add_bytes_consistent |].
  split; [exact consistent_chunk_in_buffer | exact consistent_gap_erased].
Qed.

Lemma add_bytes_keeps_buffer_and_chunks_consistent_witness :
  let self := snd (add_bytes 0x8006 [x61; x62] (EPROM_init 16 0x8000)) in
  consistent self
  /\ index (image self) (6 + 1) = nth_error [x61; x62] (Z.to_nat 1).
Proof.
  intro self.
  destruct add_bytes_keeps_buffer_and_chunks_consistent
    as (Hfresh & Hadd & Hchunk & _).
  assert (Hc : consistent self).
  { apply (Hadd (EPROM_init 16 0x8000) self 0x8006 [x61; x62]);
      [apply Hfresh | reflexivity]. }
  split; [exact Hc |].
  destruct (Hchunk self 6 [x61; x62] Hc) as (_ & _ & Hi).
  - now left.
  - apply Hi. vm_compute. split; [discriminate | reflexivity].
Defined.

(** A buffer segment whose every position reads 0xFF. *)
Lemma erased_slice (a : list byte) (start : nat) (n : nat) :
  (start + n <= List.length a)%nat ->
  (forall i, (i < n)%nat -> nth_error a (start + i) = Some xff) ->
  firstn n (skipn start a) = repeat xff n.
Proof.
  revert start. induction n as [| n IH]; intros start Hlen H.
  - reflexivity.
  - pose proof (H 0%nat ltac:(lia)) as H0. rewrite Nat.add_0_r in H0.
    destruct (skipn start a) as [| c rest] eqn:E.
    + assert (L : List.length (skipn start a) = 0%nat) by now rewrite E.
      rewrite length_skipn in L. lia.
    + assert (Hc : c = xff).
      { rewrite <- (Nat.add_0_r start) in H0.
        rewrite <- nth_error_skipn, E in H0. now injection H0. }
      subst c. cbn [firstn repeat]. f_equal.
      assert (Er : rest = skipn (S start) a).
      { change (S start) with (1 + start)%nat. rewrite <- skipn_skipn, E.
        reflexivity. }
      rewrite Er. apply IH; [lia |].
      intros i Hi. rewrite <- (H (S i) ltac:(lia)). f_equal. lia.
Qed.

(** X5. In a consistent image a successful [add_bytes] of [n] bytes moves
    the checksum by the sum of the new bytes minus [0xFF * n], modulo
    0x10000: the bytes land on erased positions only. *)
Theorem add_bytes_checksum_on_erased
        (self self' : EPROM) (addr : Z) (data : list byte) :
  consistent self ->
  add_bytes addr data self = (ok tt, self') ->
  checksum self' = (checksum self + sum data - 0xFF * len data) mod 0x10000.
Proof.
  intros (Hwf & Hproj & Hwin) Hadd.
  apply add_bytes_ok_inv in Hadd as (b & Hb & Hlo & Hhi & ->).
  destruct (add_binary_inr _ _ _ _ (proj2 Hwf) Hb) as (Hfree & _).
  pose proof (wf_image_len self Hwf) as Hlen.
  pose proof (len_nonneg data) as Hd.
  rewrite !checksum_mod. cbn [image set_image set_binfile].
  rewrite sum_slice_assign by lia.
  rewrite erased_slice.
  - rewrite sum_repeat. change (byte_val xff) with 255.
    replace (sum (image self) mod 0x10000 + sum data - 0xFF * len data)
      with (sum (image self) mod 0x10000 + (sum data - 0xFF * len data))
      by lia.
    rewrite Zplus_mod_idemp_l. f_equal. unfold len. lia.
  - unfold len in *. lia.
  - intros i Hi.
    specialize (Hproj (addr - offset self + Z.of_nat i)
                      ltac:(unfold len in *; lia)).
    rewrite Hfree in Hproj by (unfold len in *; lia).
    unfold index in Hproj.
    destruct (Z.ltb_spec (addr - offset self + Z.of_nat i) 0); [lia |].
    rewrite <- Hproj. f_equal. lia.
Qed.

Lemma add_bytes_checksum_on_erased_witness :
  let self := EPROM_init 16 0 in
  let self' := snd (add_bytes 6 [x61; x62] self) in
  checksum self' = (checksum self + sum [x61; x62] - 0xFF * len [x61; x62])
                     mod 0x10000.
Proof.
  intros self self'.
  apply (add_bytes_checksum_on_erased self self' 6 [x61; x62]).
  - apply fresh_image_consistent.
  - reflexivity.
Defined.

(** ** Reading a file into an image *)

(** The loop over the segments, when it succeeds: every segment lies inside
    the window and the buffer holds the segments' bytes, the other positions
    being as before. *)
Lemma project_segments_ok (segs : list bincopy.Segment) :
  forall bound self self',
    bincopy.wf_from bound segs ->
    wf self ->
    project_segments segs self = (ok tt, self') ->
    offset self' = offset self /\ size self' = size self
    /\ binfile self' = binfile self
    /\ (forall s, In s segs ->
                  offset self <= bincopy.address s
                  /\ bincopy.seg_end s <= offset self + size self)
    /\ (forall j, 0 <= j < size self ->
                  index (image self') j
                  = match bincopy.byte_at segs (offset self + j) with
                    | Some v => Some v
                    | None => index (image self) j
                    end).
Proof.
  induction segs as [| s segs IH]; intros bound self self' Hst Hwf H;
    cbn [project_segments] in H.
  - injection H as <-. repeat split; try reflexivity; contradiction.
  - destruct Hst as (Hb & Hne & Hrest).
    destruct (_add_bytes_to_image (bincopy.address s) (bincopy.data s) self)
      as [[e | []] self1] eqn:E; [discriminate |].
    pose proof (add_bytes_to_image_keeps self (bincopy.address s)
                                         (bincopy.data s) Hwf) as K.
    rewrite E in K. cbn [snd] in K. destruct K as (W1 & _).
    apply add_bytes_to_image_ok_inv in E as (Hlo & Hhi & ->).
    destruct (IH _ _ _ Hrest W1 H) as (O & S & B & Hin & Hidx).
    cbn [offset size binfile image set_image] in *.
    pose proof (wf_image_len self Hwf) as Hlen.
    pose proof (len_pos _ Hne) as Hp.
    split; [exact O | split; [exact S | split; [exact B | split]]].
    + intros s0 [<- | Hs0]; [| now apply Hin].
      split; [assumption | unfold bincopy.seg_end; lia].
    + intros j Hj. rewrite Hidx by assumption. cbn [bincopy.byte_at].
      rewrite index_slice_assign by lia. unfold bincopy.seg_end.
      destruct (Z.leb_spec (bincopy.address s) (offset self + j));
        destruct (Z.ltb_spec (offset self + j)
                             (bincopy.address s + len (bincopy.data s)));
        destruct (Z.leb_spec (bincopy.address s - offset self) j);
        destruct (Z.ltb_spec j (bincopy.address s - offset self
                                + len (bincopy.data s)));
        cbn [andb]; try lia; try reflexivity.
      rewrite (byte_at_below_bound segs (bincopy.seg_end s))
        by (try assumption; unfold bincopy.seg_end; lia).
      replace (offset self + j - bincopy.address s)
        with (j - (bincopy.address s - offset self)) by lia.
      destruct (nth_error (bincopy.data s)
                          (Z.to_nat (j - (bincopy.address s - offset self))))
        eqn:En; [reflexivity |].
      exfalso. revert En. apply nth_error_in_range. lia.
Qed.

(** The store only grows: a successful add keeps every stored byte. *)
Lemma add_binary_retains (b b' : bincopy.BinFile) (d : list byte) (a x : Z)
      (v : byte) :
  bincopy.wf b -> bincopy.add_binary b d a = inr b' ->
  bincopy.byte_at b x = Some v -> bincopy.byte_at b' x = Some v.
Proof.
  intros Hwf Hadd Hx.
  destruct (add_binary_inr _ _ _ _ Hwf Hadd) as (Hfree & _ & Hat & _).
  rewrite Hat.
  destruct (Z.leb_spec a x); destruct (Z.ltb_spec x (a + len d));
    cbn [andb]; try assumption.
  rewrite Hfree in Hx by lia. discriminate.
Qed.

Lemma add_runs_retains (runs : list bincopy.Segment) :
  forall b r b' x v,
    bincopy.wf b -> bincopy.add_runs runs b = (r, b') ->
    bincopy.byte_at b x = Some v -> bincopy.byte_at b' x = Some v.
Proof.
  induction runs as [| run runs IH]; intros b r b' x v Hwf H Hx; simpl in H.
  - injection H as _ <-. assumption.
  - destruct (bincopy.add_binary b (bincopy.data run) (bincopy.address run))
      as [e | b1] eqn:E.
    + injection H as _ <-. assumption.
    + apply (IH b1 r b' x v); try assumption.
      * now apply (add_binary_wf b _ _ _ Hwf E).
      * now apply (add_binary_retains b b1 _ _ x v Hwf E).
Qed.

Lemma add_record_file_retains decode (fs : filesystem) (filename : string)
      (b b' : bincopy.BinFile) (r : result unit) (x : Z) (v : byte) :
  bincopy.wf b -> add_record_file decode fs filename b = (r, b') ->
  bincopy.byte_at b x = Some v -> bincopy.byte_at b' x = Some v.
Proof.
  intros Hwf H Hx. unfold add_record_file in H.
  destruct (fs filename) as [contents |]; [| now injection H as _ <-].
  destruct (decode contents) as [e | runs]; [now injection H as _ <- |].
  destruct (bincopy.add_runs runs b) as [[e |] b1] eqn:E;
    injection H as _ <-; now apply (add_runs_retains runs b _ b1 x v Hwf E).
Qed.

(** Whatever happens while a file is loaded, no stored byte is lost or
    changed. *)
Lemma load_file_retains (fs : filesystem) (filename : string) (addr : Z)
      (ftype : option string) (b b' : bincopy.BinFile) (r : result unit)
      (x : Z) (v : byte) :
  bincopy.wf b -> load_file fs filename addr ftype b = (r, b') ->
  bincopy.byte_at b x = Some v -> bincopy.byte_at b' x = Some v.
Proof.
  intros Hwf H Hx. unfold load_file in H.
  destruct (is_type ftype "srecord");
    [now apply (add_record_file_retains _ _ _ _ _ _ x v Hwf H) |].
  destruct (is_type ftype "binary").
  { unfold add_binary_file in H.
    destruct (fs filename) as [contents |]; [| now injection H as _ <-].
    destruct (bincopy.add_binary b (file_bytes contents) addr) as [e | b1] eqn:E;
      injection H as _ <-; [assumption |].
    now apply (add_binary_retains b b1 _ _ x v Hwf E). }
  destruct (is_type ftype "intelhex");
    [now apply (add_record_file_retains _ _ _ _ _ _ x v Hwf H) |].
  destruct (is_type ftype "hex"); [| now injection H as _ <-].
  destruct (_import_hex fs filename) as [e | bb]; [now injection H as _ <- |].
  destruct (bincopy.add_binary b bb addr) as [e | b1] eqn:E;
    injection H as _ <-; [assumption |].
  now apply (add_binary_retains b b1 _ _ x v Hwf E).
Qed.

(** A [readfile] that succeeds loaded the file and projected every segment
    of the store. *)
Lemma readfile_ok_inv (fs : filesystem) (filename : string) (addr : Z)
      (self self' : EPROM) (ftype : option string) :
  readfile fs filename addr self = (ok ftype, self') ->
  exists b,
    load_file fs filename addr ftype (binfile self) = (ok tt, b)
    /\ project_segments (bincopy.segments b) (set_binfile self b)
       = (ok tt, self').
Proof.
  unfold readfile. intro H.
  destruct (_get_filetype fs filename) as [e | ft]; [discriminate |].
  destruct (load_file fs filename addr ft (binfile self)) as [r b] eqn:El.
  destruct r as [[] | []]; try discriminate.
  destruct (project_segments (bincopy.segments b) (set_binfile self b))
    as [[e | []] s2] eqn:Ep; [discriminate |].
  injection H as <- <-. exists b. now split.
Qed.

(** A store with a byte outside the window cannot be projected. *)
Lemma readfile_needs_store_within_window
      (fs : filesystem) (filename : string) (addr : Z) (self : EPROM) (x : Z) :
  wf self ->
  bincopy.byte_at (binfile self) x <> None ->
  ~ (offset self <= x < offset self + size self) ->
  exists e self', readfile fs filename addr self = (raise e, self').
Proof.
  intros Hwf Hx Hout.
  destruct (readfile fs filename addr self) as [[e | ft] self'] eqn:E;
    [now exists e, self' |].
  exfalso. apply readfile_ok_inv in E as (b & Hload & Hproj).
  destruct (load_file_wf _ _ _ _ _ _ _ (proj2 Hwf) Hload) as [bound Hst].
  destruct (bincopy.byte_at (binfile self) x) as [v |] eqn:Ev; [| congruence].
  pose proof (load_file_retains _ _ _ _ _ _ _ x v (proj2 Hwf) Hload Ev) as Hv.
  destruct (byte_at_some_in _ _ _ Hv) as (s & Hin & Hr & _).
  assert (W : wf (set_binfile self b)).
  { split; [apply Hwf | now exists bound]. }
  destruct (project_segments_ok _ _ _ _ Hst W Hproj) as (_ & _ & _ & Hwin & _).
  destruct (Hwin s Hin) as [Ha Hb]. cbn [offset size set_binfile] in *.
  lia.
Qed.

(** X6. A successful [readfile] on a consistent image leaves a consistent
    image (the buffer is again the projection of the store, all of it inside
    the window), and every byte stored before is still stored, unchanged. *)
Theorem readfile_keeps_buffer_consistent
        (fs : filesystem) (filename : string) (addr : Z)
        (self self' : EPROM) (ftype : option string) :
  consistent self ->
  readfile fs filename addr self = (ok ftype, self') ->
  consistent self'
  /\ forall x v, bincopy.byte_at (binfile self) x = Some v ->
                 bincopy.byte_at (binfile self') x = Some v.
Proof.
  intros (Hwf & Hproj & Hwin) H.
  apply readfile_ok_inv in H as (b & Hload & Hp).
  destruct (load_file_wf _ _ _ _ _ _ _ (proj2 Hwf) Hload) as [bound Hst].
  assert (W : wf (set_binfile self b)).
  { split; [apply Hwf | now exists bound]. }
  pose proof (project_segments_keeps (bincopy.segments b) _ W) as K.
  rewrite Hp in K. cbn [snd] in K. destruct K as (W' & _).
  destruct (project_segments_ok _ _ _ _ Hst W Hp) as (O & S & B & Hin & Hidx).
  cbn [offset size binfile image set_binfile] in *.
  split; [split; [exact W' | split] |].
  - intros j Hj. rewrite O, S, B in *. rewrite Hidx by assumption.
    unfold bincopy.segments.
    destruct (bincopy.byte_at b (offset self + j)) as [v |] eqn:E;
      [reflexivity |].
    rewrite Hproj by assumption.
    destruct (bincopy.byte_at (binfile self) (offset self + j)) as [v |] eqn:E0;
      [| reflexivity].
    rewrite (load_file_retains _ _ _ _ _ _ _ _ v (proj2 Hwf) Hload E0) in E.
    discriminate.
  - intros x Hx. rewrite O, S, B in *.
    destruct (bincopy.byte_at b x) as [v |] eqn:E; [| congruence].
    destruct (byte_at_some_in _ _ _ E) as (s & Hs & Hr & _).
    destruct (Hin s Hs). lia.
  - intros x v Hx. rewrite B.
    now apply (load_file_retains _ _ _ _ _ _ _ x v (proj2 Hwf) Hload).
Qed.

Lemma readfile_keeps_buffer_consistent_witness :
  let fs : filesystem :=
    fun name => if (name =? "echo.hex")%string then Some "7879 7A"%string
                else None in
  let self := snd (add_bytes 6 [x61; x62] (EPROM_init 16 0)) in
  let self' := snd (readfile fs "echo.hex" 10 self) in
  consistent self'
  /\ forall x v, bincopy.byte_at (binfile self) x = Some v ->
                 bincopy.byte_at (binfile self') x = Some v.
Proof.
  intros fs self self'.
  apply (readfile_keeps_buffer_consistent fs "echo.hex" 10 self self'
                                          (Some "hex"%string)).
  - apply (add_bytes_consistent (EPROM_init 16 0) self 6 [x61; x62]);
      [apply fresh_image_consistent | reflexivity].
  - reflexivity.
Defined.

(** X7. Once [add_bytes] has raised its bounds error on non-empty data at
    free addresses, the run it left in the store lies outside the window,
    and from then on no [readfile] succeeds on that image, whatever the
    file: the projection of the store raises.  More generally [readfile]
    raises on every image whose store holds a byte outside the window. *)
Theorem readfile_fails_after_bounds_failure
        (self : EPROM) (addr : Z) (data : list byte) :
  wf self ->
  data <> [] ->
  bincopy.range_free (binfile self) addr (len data) ->
  addr < offset self \/ offset self + size self < addr + len data ->
  forall fs filename a,
  exists e self2,
    readfile fs filename a (snd (add_bytes addr data self)) = (raise e, self2).
Proof.
  intros Hwf Hne Hfree Hout fs filename a.
  pose proof (len_pos _ Hne) as Hp.
  destruct (add_binary_free _ _ _ Hfree) as [b Hb].
  destruct (add_binary_inr _ _ _ _ (proj2 Hwf) Hb) as (_ & Hwfb & Hat & _).
  assert (Hst : snd (add_bytes addr data self) = set_binfile self b).
  { unfold add_bytes. rewrite Hb.
    destruct (Z.lt_ge_cases addr (offset self)).
    - now rewrite (add_bytes_to_image_below (set_binfile self b)).
    - rewrite (add_bytes_to_image_past (set_binfile self b));
        [reflexivity | assumption |].
      cbn [offset size set_binfile]. lia. }
  rewrite Hst.
  assert (W : wf (set_binfile self b)) by (split; [apply Hwf | exact Hwfb]).
  assert (Hcov : forall x, addr <= x < addr + len data ->
                           bincopy.byte_at (binfile (set_binfile self b)) x
                           <> None).
  { intros x Hx. cbn [binfile set_binfile]. rewrite Hat.
    destruct (Z.leb_spec addr x); [| lia].
    destruct (Z.ltb_spec x (addr + len data)); [| lia].
    cbn [andb]. apply nth_error_in_range. lia. }
  destruct (Z.lt_ge_cases addr (offset self)).
  - apply (readfile_needs_store_within_window fs filename a _ addr W).
    + apply Hcov. lia.
    + cbn [offset size set_binfile]. lia.
  - apply (readfile_needs_store_within_window fs filename a _
             (addr + len data - 1) W).
    + apply Hcov. lia.
    + cbn [offset size set_binfile]. lia.
Qed.

Lemma readfile_fails_after_bounds_failure_witness :
  let fs : filesystem :=
    fun name => if (name =? "echo.hex")%string then Some "7879"%string
                else None in
  exists e self2,
    readfile fs "echo.hex" 0 (snd (add_bytes 15 [x61; x62] (EPROM_init 16 0)))
    = (raise e, self2).
Proof.
  intro fs.
  apply (readfile_fails_after_bounds_failure (EPROM_init 16 0) 15 [x61; x62]).
  - split; [reflexivity | exists 0; exact I].
  - discriminate.
  - intros x _. reflexivity.
  - right. reflexivity.
Defined.

(** ** Errors of the store and the codecs: raw from [scanfile], wrapped by
    [readfile] *)



(** ** Raw hex text: writing and reading back *)

(** The two digits ["%02X"] gives for a byte, and what the reader makes of
    them. *)
Lemma fmt_02X_byte (b : byte) :
  exists h l,
    fmt_02X (byte_val b) = String h (String l EmptyString)
    /\ is_hex h = true /\ is_hex l = true
    /\ to_byte (int16 (String h (String l EmptyString))) = b
    /\ is_space h = false /\ (h =? "#")%char = false
    /\ (h =? LF)%char = false /\ (l =? LF)%char = false
    /\ (h =? CR)%char = false /\ (l =? CR)%char = false.
Proof.
  destruct b; do 2 eexists; (split; [vm_compute; reflexivity |]);
    repeat split; vm_compute; reflexivity.
Qed.

Lemma str_length_app (a b : string) :
  String.length (a ++ b) = (String.length a + String.length b)%nat.
Proof. induction a as [| c a IH]; simpl; [reflexivity | now rewrite IH]. Qed.

(** The loop of [_data_to_hex_strings] writes [hex_text]. *)
Lemma fold_hex_strings (data : list byte) :
  forall buf n,
    fst (fold_left hex_strings_step data (buf, n))
    = (buf ++ hex_text n data)%string.
Proof.
  induction data as [| b data IH]; intros buf n; cbn [fold_left hex_text].
  - now rewrite str_app_nil_r.
  - unfold hex_strings_step at 2.
    destruct (n + 1 >=? 16); rewrite IH, !str_app_assoc; reflexivity.
Qed.

Lemma data_to_hex_strings_text (data : list byte) :
  _data_to_hex_strings data = hex_text 0 data.
Proof. unfold _data_to_hex_strings. now rewrite fold_hex_strings. Qed.

Lemma universal_newlines_cons (c : ascii) (s : string) :
  (c =? CR)%char = false ->
  universal_newlines (String c s) = String c (universal_newlines s).
Proof. intro H. cbn [universal_newlines]. now rewrite H. Qed.

(** The text has no carriage return for text mode to translate. *)
Lemma universal_newlines_hex_text (data : list byte) :
  forall n, universal_newlines (hex_text n data) = hex_text n data.
Proof.
  induction data as [| b data IH]; intro n; [reflexivity |].
  cbn [hex_text].
  destruct (fmt_02X_byte b)
    as (h & l & -> & _ & _ & _ & _ & _ & _ & _ & Hh & Hl).
  cbn [String.append].
  rewrite (universal_newlines_cons h) by assumption.
  rewrite (universal_newlines_cons l) by assumption.
  destruct (n + 1 >=? 16).
  - unfold NL. cbn [String.append].
    rewrite (universal_newlines_cons LF) by reflexivity. now rewrite IH.
  - now rewrite IH.
Qed.

Lemma split_lines_cons (c : ascii) (s : string) :
  (c =? LF)%char = false ->
  split_lines (String c s)
  = match split_lines s with
    | [] => [String c EmptyString]
    | l :: ls => String c l :: ls
    end.
Proof. intro H. cbn [split_lines]. now rewrite H. Qed.

(** What a line adds does not depend on what was read before. *)
Lemma import_hex_line_bytes (bb : list byte) (line : string) :
  import_hex_line bb line = bb ++ import_hex_line [] line.
Proof.
  rewrite (import_hex_line_spec bb), (import_hex_line_spec []). reflexivity.
Qed.

Lemma import_hex_lines_bytes (lines : list string) :
  forall bb, fold_left import_hex_line lines bb
             = bb ++ flat_map (import_hex_line []) lines.
Proof.
  induction lines as [| l lines IH]; intro bb; cbn [fold_left flat_map].
  - now rewrite app_nil_r.
  - rewrite IH, import_hex_line_bytes, app_assoc. reflexivity.
Qed.

(** A line that starts with a digit pair: the pair is the first byte. *)
Lemma import_hex_line_pair (h l : ascii) (rest : string) :
  is_hex h = true -> is_hex l = true ->
  is_space h = false -> (h =? "#")%char = false ->
  is_comment (String h (String l rest)) = false
  /\ (is_comment rest = false ->
      import_hex_line [] (String h (String l rest))
      = to_byte (int16 (String h (String l EmptyString)))
                :: import_hex_line [] rest).
Proof.
  intros Hh Hl Hs Hc.
  assert (Hcom : is_comment (String h (String l rest)) = false).
  { unfold is_comment. cbn [lstrip]. rewrite Hs. exact Hc. }
  split; [exact Hcom |]. intro Hrest.
  rewrite (import_hex_line_spec [] (String h (String l rest))).
  rewrite (import_hex_line_spec [] rest).
  rewrite Hcom, Hrest, <- !findall_hex_runs, findall_cons2, Hh, Hl.
  reflexivity.
Qed.

(** Reading the lines of [hex_text] gives the data back. *)
Lemma import_hex_text_lines (data : list byte) :
  forall n,
    match split_lines (hex_text n data) with
    | [] => data = []
    | l1 :: ls =>
        is_comment l1 = false
        /\ import_hex_line [] l1 ++ flat_map (import_hex_line []) ls = data
    end.
Proof.
  induction data as [| b data IH]; intro n; [reflexivity |].
  cbn [hex_text].
  destruct (fmt_02X_byte b)
    as (h & l & -> & Hh & Hl & Hb & Hs & Hc & HhL & HlL & _ & _).
  cbn [String.append].
  destruct (import_hex_line_pair h l EmptyString Hh Hl Hs Hc) as [_ Hone].
  destruct (n + 1 >=? 16).
  - unfold NL. cbn [String.append].
    rewrite (split_lines_cons h) by assumption.
    rewrite (split_lines_cons l) by assumption.
    cbn [split_lines]. change (LF =? LF)%char with true. cbv beta iota.
    destruct (import_hex_line_pair h l (String LF EmptyString) Hh Hl Hs Hc)
      as [Hcom Hpair].
    split; [exact Hcom |].
    rewrite Hpair by reflexivity. rewrite Hb.
    change (import_hex_line [] (String LF EmptyString)) with (@nil byte).
    cbn [app]. f_equal.
    specialize (IH 0). destruct (split_lines (hex_text 0 data)) as [| l1 ls].
    + now subst data.
    + apply IH.
  - rewrite (split_lines_cons h) by assumption.
    rewrite (split_lines_cons l) by assumption.
    specialize (IH (n + 1)).
    destruct (split_lines (hex_text (n + 1) data)) as [| l1 ls].
    + subst data.
      destruct (import_hex_line_pair h l EmptyString Hh Hl Hs Hc)
        as [Hcom Hpair].
      split; [exact Hcom |]. rewrite Hpair by reflexivity. rewrite Hb.
      reflexivity.
    + destruct IH as [Hl1 Hrest].
      destruct (import_hex_line_pair h l l1 Hh Hl Hs Hc) as [Hcom Hpair].
      split; [exact Hcom |]. rewrite (Hpair Hl1), Hb.
      cbn [app]. now rewrite Hrest.
Qed.

Lemma str_length_hex_text (data : list byte) :
  forall n,
    0 <= n < 16 ->
    Z.of_nat (String.length (hex_text n data))
    = 2 * len data + (n + len data) / 16.
Proof.
  induction data as [| b data IH]; intros n Hn.
  - unfold len. simpl. rewrite Z.add_0_r, Z.div_small by lia. reflexivity.
  - cbn [hex_text].
    destruct (fmt_02X_byte b) as (h & l & -> & _).
    cbn [String.append String.length].
    replace (len (b :: data)) with (1 + len data)
      by (unfold len; cbn [List.length]; lia).
    destruct (Z.geb_spec (n + 1) 16).
    + unfold NL. cbn [String.append String.length].
      rewrite !Nat2Z.inj_succ, IH by lia.
      replace (n + (1 + len data)) with (len data + 1 * 16) by lia.
      rewrite Z.div_add by lia. rewrite Z.add_0_l. lia.
    + rewrite !Nat2Z.inj_succ, IH by lia.
      replace (n + (1 + len data)) with (n + 1 + len data) by lia. lia.
Qed.

(** X9. The raw hex text [_data_to_hex_strings] writes for any data (two
    upper-case digits per byte, a newline after every sixteenth byte, so
    [2 * n + n / 16] characters for [n] bytes) is read back by [_import_hex]
    as exactly that data. *)
Theorem raw_hex_text_round_trip (data : list byte) :
  (forall fs filename,
      fs filename = Some (_data_to_hex_strings data) ->
      _import_hex fs filename = ok data)
  /\ _data_to_hex_strings data = hex_text 0 data
  /\ Z.of_nat (String.length (_data_to_hex_strings data))
     = 2 * len data + len data / 16.
Proof.
  split; [| split].
  - intros fs filename Hfs. unfold _import_hex. rewrite Hfs. f_equal.
    unfold readlines.
    rewrite data_to_hex_strings_text, universal_newlines_hex_text.
    rewrite import_hex_lines_bytes. cbn [app].
    pose proof (import_hex_text_lines data 0) as H.
    destruct (split_lines (hex_text 0 data)) as [| l1 ls].
    + now subst data.
    + apply H.
  - apply data_to_hex_strings_text.
  - rewrite data_to_hex_strings_text, str_length_hex_text by lia.
    reflexivity.
Qed.

Lemma raw_hex_text_round_trip_witness :
  let data := [x00; x0a; xff] ++ repeat x61 16 in
  let fs : filesystem :=
    fun name => if (name =? "out.hex")%string
                then Some (_data_to_hex_strings data) else None in
  _import_hex fs "out.hex" = ok data.
Proof.
  intros data fs.
  destruct (raw_hex_text_round_trip data) as [H _].
  apply H. reflexivity.
Defined.

(** ** The C source text *)

Lemma substring_prefix (s t : string) :
  substring 0 (String.length s) (s ++ t) = s.
Proof.
  induction s as [| c s IH]; simpl.
  - destruct t; reflexivity.
  - now rewrite IH.
Qed.

(** [(s ++ t)[:-len(t)]] is [s]. *)
Lemma drop_last_app (s t : string) :
  drop_last (String.length t) (s ++ t) = s.
Proof.
  unfold drop_last. rewrite str_length_app.
  replace (String.length s + String.length t - String.length t)%nat
    with (String.length s) by lia.
  apply substring_prefix.
Qed.

(** The loop of [_data_to_c_src] followed by the removal of the last comma
    writes the items of [c_array_items] after what was there. *)
Lemma fold_c_src (data : list byte) :
  forall buf line n,
    data <> [] ->
    0 <= n < 16 ->
    c_src_finish (fold_left c_src_step data (buf, line, n))
    = (buf ++ line ++ c_array_items n data)%string.
Proof.
  induction data as [| b data IH]; intros buf line n Hne Hn; [congruence |].
  cbn [fold_left c_array_items]. unfold c_src_step at 2.
  set (item := ("0x" ++ fmt_02X (byte_val b))%string).
  assert (Hline : ((if (n =? 0)%Z then line ++ TAB else line ++ " ")
                   ++ ("0x" ++ fmt_02X (byte_val b) ++ ","))%string
                  = (line ++ (if (n =? 0)%Z then TAB else " ") ++ item ++ ",")%string).
  { subst item. destruct (n =? 0); now rewrite !str_app_assoc. }
  rewrite Hline. clear Hline.
  destruct data as [| b' data'].
  - cbn [fold_left c_src_finish]. rewrite str_app_nil_r.
    destruct (Z.geb_spec (n + 1) 16).
    + cbn [c_src_finish Z.eqb].
      replace (buf ++ (line ++ (if (n =? 0)%Z then TAB else " ") ++ item ++ ",")
               ++ NL)%string
        with ((buf ++ line ++ (if (n =? 0)%Z then TAB else " ") ++ item)
              ++ ("," ++ NL))%string
        by (now rewrite !str_app_assoc).
      apply (drop_last_app _ ("," ++ NL)).
    + cbn [c_src_finish].
      destruct (Z.eqb_spec (n + 1) 0); [lia |]. subst item.
      rewrite !str_app_assoc. do 2 f_equal. rewrite <- !str_app_assoc.
      f_equal.
      apply (drop_last_app _ ",").
  - destruct (Z.geb_spec (n + 1) 16).
    + rewrite IH by (try discriminate; lia).
      now rewrite !str_app_assoc.
    + rewrite IH by (try discriminate; lia).
      now rewrite !str_app_assoc.
Qed.

(** X10. For non-empty data [_data_to_c_src] gives the header, then the
    items ["0xHH"] separated by commas, sixteen to a row, each row starting
    with a tab and the others following a space, with no comma after the last
    item, then the closing ["};"].  For empty data the slice meant to remove
    a trailing comma removes the opening brace of the header instead, and the
    text declares [assemblyImage[0] =] followed directly by ["};"]. *)
Theorem data_to_c_src_layout :
  (forall data,
      data <> [] ->
      _data_to_c_src data
      = (c_src_header (len data) ++ c_array_items 0 data
         ++ NL ++ "};" ++ NL)%string)
  /\ (forall n, exists decl,
         c_src_header n = (decl ++ "{" ++ NL)%string
         /\ (n = 0 -> _data_to_c_src [] = (decl ++ NL ++ "};" ++ NL)%string)).
Proof.
  split.
  - intros data Hne. unfold _data_to_c_src.
    rewrite fold_c_src by (try assumption; lia).
    cbn [String.append]. now rewrite !str_app_assoc.
  - intro n.
    exists ("// Generated by epromimage.py" ++ NL ++ NL
            ++ "#include <stdint.h>" ++ NL ++ NL ++ NL
            ++ "#include <stddef.h>" ++ NL ++ NL ++ NL
            ++ "// Data size 0x" ++ fmt_X n ++ " bytes (" ++ fmt_d n ++ ")"
            ++ NL ++ NL
            ++ "const size_t assemblyImageSize = 0x" ++ fmt_X n ++ ";"
            ++ NL ++ NL
            ++ "const uint8_t assemblyImage[" ++ fmt_d n ++ "] = ")%string.
    split.
    + unfold c_src_header. rewrite !str_app_assoc. reflexivity.
    + intros ->. vm_compute. reflexivity.
Qed.

Lemma data_to_c_src_layout_witness :
  _data_to_c_src [x00; x0a; xff]
  = (c_src_header 3 ++ TAB ++ "0x00, 0x0A, 0xFF" ++ NL ++ "};" ++ NL)%string.
Proof.
  destruct data_to_c_src_layout as [H _].
  rewrite (H [x00; x0a; xff]) by discriminate. reflexivity.
Defined.
